(** * Verification of the per-client request rate limiter

    Shallow embedding of [src/utils/rateLimiter.ts] (class [RateLimiter]) and
    of the limiter instance configured in [src/api/chat.ts], together with the
    properties the specification states about them.

    Modelling choices, all read off the source:
    - [Date.now()] is an integral number of milliseconds: timestamps are [Z],
      and the instant read at line 20 of [checkLimit] is an explicit argument;
    - the caps are TypeScript [number]s; they may come from
      [Number(process.env.X)], hence the type [number] below keeps [NaN] and
      the two infinities next to the finite values;
    - [this.requests] is a [Map<string, number[]>]: a [gmap string (list Z)];
    - [console.warn] is the only output of [checkLimit]: the warnings of a
      call are returned as data;
    - [checkLimit] is declared [async] but its body contains no [await]: a
      call runs to completion before any other code of the event loop runs,
      so one call is one state transformer. *)

From Stdlib Require Import ZArith QArith Bool Ascii String Lia.
From stdpp Require Import base option list gmap strings pretty sorting.

Local Open Scope Z_scope.

(** ** JavaScript numbers, as far as the caps need them *)

(** A finite value is kept as the rational it denotes ([-0] is [Fin 0]: the
    two zeros are not told apart by [||] or by [>=]). *)
Inductive number : Type :=
  | NaN
  | PosInfinity
  | NegInfinity
  | Fin (q : Q).

Definition ofZ (z : Z) : number := Fin (inject_Z z).

(** ToBoolean on a number: [NaN], [+0] and [-0] are falsy. *)
Definition truthy (x : number) : bool :=
  match x with
  | NaN => false
  | PosInfinity | NegInfinity => true
  | Fin q => negb (Qeq_bool q 0)
  end.

(** [x || d] on numbers. *)
Definition or_else (x d : number) : number := if truthy x then x else d.

(** [o ?? d]: only [undefined] (here [None]) selects the right operand. *)
Definition nullish (o : option number) (d : number) : number :=
  match o with
  | Some x => x
  | None => d
  end.

(** [n >= cap] for an array length [n]: every comparison with [NaN] is
    false. *)
Definition count_ge (n : nat) (cap : number) : bool :=
  match cap with
  | NaN => false
  | PosInfinity => false
  | NegInfinity => true
  | Fin q => Qle_bool q (inject_Z (Z.of_nat n))
  end.

(** ** rateLimiter.ts *)

Record RateLimitConfig : Type := mkConfig {
  requestsPerMinute : number;
  requestsPerHour : number;
  requestsPerDay : number
}.

(** [Partial<RateLimitConfig>]: every field may be absent. *)
Record PartialConfig : Type := mkPartial {
  optRequestsPerMinute : option number;
  optRequestsPerHour : option number;
  optRequestsPerDay : option number
}.

Record RateLimiter : Type := mkLimiter {
  requests : gmap string (list Z);
  config : RateLimitConfig
}.

(** How the evaluation of a [new] expression ends. *)
Inductive completion (A : Type) : Type :=
  | Normal (a : A)
  | Throw (err : string).
Arguments Normal {A} a.
Arguments Throw {A} err.

(** [config?.field]: [undefined] when [config] itself is. *)
Definition optField (config : option PartialConfig)
    (field : PartialConfig -> option number) : option number :=
  match config with
  | Some c => field c
  | None => None
  end.

(** Lines 11-17. The body has no [throw] and calls nothing: it always
    completes normally. *)
Definition constructor (config : option PartialConfig) : completion RateLimiter :=
  Normal
    {| requests := ∅;
       config :=
         {| requestsPerMinute := nullish (optField config optRequestsPerMinute) (ofZ 60);
            requestsPerHour := nullish (optField config optRequestsPerHour) (ofZ 1000);
            requestsPerDay := nullish (optField config optRequestsPerDay) (ofZ 5000) |} |}.

Definition minute : Z := 60 * 1000.
Definition hour : Z := 60 * minute.
Definition day : Z := 24 * hour.

(** The three windows, in the order of the three [if]s of [checkLimit]. *)
Inductive Window : Type := Minute | Hour | Day.

(** One [console.warn] line: the window named in the message, the client,
    the count and the limit it prints. *)
Record Warning : Type := mkWarning {
  warnWindow : Window;
  warnClient : string;
  warnCount : nat;
  warnLimit : number
}.

Record CheckResult : Type := mkResult {
  allowed : bool;
  warned : list Warning;
  limiter : RateLimiter
}.

(** Line 25: [this.requests.get(clientId) || []] (an array is truthy, so the
    right operand is taken exactly when the key is absent). *)
Definition stored (this : RateLimiter) (clientId : string) : list Z :=
  default [] (requests this !! clientId).

(** Line 27. *)
Definition pruned (now : Z) (timestamps : list Z) : list Z :=
  filter (λ ts, now - ts < day) timestamps.

(** Lines 29-31, on the pruned array. *)
Definition lastMinute (now : Z) (timestamps : list Z) : nat :=
  length (filter (λ ts, now - ts < minute) timestamps).
Definition lastHour (now : Z) (timestamps : list Z) : nat :=
  length (filter (λ ts, now - ts < hour) timestamps).
Definition lastDay (timestamps : list Z) : nat := length timestamps.

(** Lines 19-61. A rejecting branch returns before [this.requests.set]: the
    limiter is returned as it was. *)
Definition checkLimit (this : RateLimiter) (now : Z) (clientId : string) : CheckResult :=
  let timestamps := stored this clientId in
  let timestamps := pruned now timestamps in
  let lastMinute := lastMinute now timestamps in
  let lastHour := lastHour now timestamps in
  let lastDay := lastDay timestamps in
  if count_ge lastMinute (requestsPerMinute (config this)) then
    {| allowed := false;
       warned := [mkWarning Minute clientId lastMinute (requestsPerMinute (config this))];
       limiter := this |}
  else if count_ge lastHour (requestsPerHour (config this)) then
    {| allowed := false;
       warned := [mkWarning Hour clientId lastHour (requestsPerHour (config this))];
       limiter := this |}
  else if count_ge lastDay (requestsPerDay (config this)) then
    {| allowed := false;
       warned := [mkWarning Day clientId lastDay (requestsPerDay (config this))];
       limiter := this |}
  else
    {| allowed := true;
       warned := [];
       limiter :=
         {| requests := <[clientId := timestamps ++ [now]]> (requests this);
            config := config this |} |}.

(** A call as the limiter sees it: the instant [Date.now()] returns inside
    the call, and the client identifier. *)
Definition Call : Type := Z * string.

(** A sequence of calls on one limiter instance, in the order in which the
    event loop runs them; the decisions come out in the same order. *)
Fixpoint run (this : RateLimiter) (calls : list Call) : list bool * RateLimiter :=
  match calls with
  | [] => ([], this)
  | (now, clientId) :: rest =>
      let r := checkLimit this now clientId in
      let '(ds, final) := run (limiter r) rest in
      (allowed r :: ds, final)
  end.

Definition decisions (this : RateLimiter) (calls : list Call) : list bool :=
  fst (run this calls).
Definition after (this : RateLimiter) (calls : list Call) : RateLimiter :=
  snd (run this calls).

(** ** chat.ts, lines 4-8: the limiter of the chat-proxy endpoint *)

Section ChatProxy.

(** [Number] applied to a string is the built-in StringToNumber of the
    language, which is no code of this repository: the definitions below
    take it as given, whatever it answers. *)
Variable StringToNumber : string -> number.

(** [Number(process.env.X)]: an unset variable reads as [undefined], and
    [Number(undefined)] is [NaN]. *)
Definition Number (v : option string) : number :=
  match v with
  | Some s => StringToNumber s
  | None => NaN
  end.

(** The object literal passed to [new RateLimiter]. *)
Definition chatConfig (env : gmap string string) : PartialConfig :=
  {| optRequestsPerMinute :=
       Some (or_else (Number (env !! "RATE_LIMIT_REQUESTS_PER_MINUTE"%string)) (ofZ 15));
     optRequestsPerHour :=
       Some (or_else (Number (env !! "RATE_LIMIT_REQUESTS_PER_HOUR"%string)) (ofZ 250));
     optRequestsPerDay :=
       Some (or_else (Number (env !! "RATE_LIMIT_REQUESTS_PER_DAY"%string)) (ofZ 500)) |}.

Definition rateLimiter (env : gmap string string) : completion RateLimiter :=
  constructor (Some (chatConfig env)).

(** An override that is unset, or set to a string that is no numeric
    literal (StringToNumber answers [NaN] exactly on those). *)
Definition unsetOrNonNumeric (v : option string) : Prop :=
  match v with
  | Some s => StringToNumber s = NaN
  | None => True
  end.

End ChatProxy.

(** StringToNumber on signed decimal integer literals and on the literal
    [Infinity], to run the definitions above on concrete environments.  The
    empty string reads as zero, as in the language; every other string
    outside this fragment is read as [NaN] here. *)
Definition digitValue (a : ascii) : option Z :=
  let n := Z.of_nat (nat_of_ascii a) in
  if bool_decide (48 <= n <= 57) then Some (n - 48) else None.

Fixpoint digitsValue (acc : Z) (s : string) : option Z :=
  match s with
  | EmptyString => Some acc
  | String a rest =>
      match digitValue a with
      | Some d => digitsValue (10 * acc + d) rest
      | None => None
      end
  end.

Definition unsignedDecimal (s : string) : number :=
  match s with
  | EmptyString => NaN
  | _ =>
      if String.eqb s "Infinity" then PosInfinity
      else match digitsValue 0 s with
           | Some n => ofZ n
           | None => NaN
           end
  end.

Definition negate (x : number) : number :=
  match x with
  | NaN => NaN
  | PosInfinity => NegInfinity
  | NegInfinity => PosInfinity
  | Fin q => Fin (- q)
  end.

Definition decimalStringToNumber (s : string) : number :=
  match s with
  | EmptyString => ofZ 0
  | String "+" rest => unsignedDecimal rest
  | String "-" rest => negate (unsignedDecimal rest)
  | _ => unsignedDecimal s
  end.

(** ** The vocabulary of the specification *)

(** The limiter a configuration yields, before any request. *)
Definition limiterOf (c : RateLimitConfig) : RateLimiter :=
  {| requests := ∅; config := c |}.

Definition caps (m h d : Z) : RateLimitConfig :=
  mkConfig (ofZ m) (ofZ h) (ofZ d).

Definition overrides (m h d : Z) : PartialConfig :=
  mkPartial (Some (ofZ m)) (Some (ofZ h)) (Some (ofZ d)).

(** The calls of a run, each with its client and its decision. *)
Fixpoint tagged (this : RateLimiter) (calls : list Call) : list (string * bool) :=
  match calls with
  | [] => []
  | (now, clientId) :: rest =>
      let r := checkLimit this now clientId in
      (clientId, allowed r) :: tagged (limiter r) rest
  end.

(** How many calls of a run were made by [clientId] and admitted. *)
Definition admissions (clientId : string) (this : RateLimiter) (calls : list Call) : nat :=
  length (filter (λ p, p = (clientId, true)) (tagged this calls)).

(** All instants of [ts] lie in one span shorter than a minute. *)
Definition withinOneMinute (ts : list Z) : Prop :=
  ∀ t t', t ∈ ts → t' ∈ ts → t' - t < minute.

(** Section 4.1, step 4 of the specification: the count of a window, taken
    on the sequence pruned to the last 24 hours. *)
Definition windowLength (w : Window) : Z :=
  match w with
  | Minute => 60000
  | Hour => 3600000
  | Day => 86400000
  end.

Definition windowCount (w : Window) (now : Z) (timestamps : list Z) : nat :=
  length (filter (λ ts, now - ts < windowLength w)
            (filter (λ ts, now - ts < windowLength Day) timestamps)).

Definition capOf (w : Window) (c : RateLimitConfig) : number :=
  match w with
  | Minute => requestsPerMinute c
  | Hour => requestsPerHour c
  | Day => requestsPerDay c
  end.

(** Step 5 of the specification: the first window, in the order minute,
    hour, day, whose count has reached its cap. *)
Definition exceeded (c : RateLimitConfig) (now : Z) (timestamps : list Z)
    (w : Window) : bool :=
  count_ge (windowCount w now timestamps) (capOf w c).

Definition firstExceeded (c : RateLimitConfig) (now : Z) (timestamps : list Z)
    : option Window :=
  List.find (exceeded c now timestamps) [Minute; Hour; Day].

(** [w'] is checked before [w]. *)
Definition precedes (w' w : Window) : bool :=
  match w', w with
  | Minute, Hour | Minute, Day | Hour, Day => true
  | _, _ => false
  end.

(** Section 4.1 of the specification, steps 2 to 6, in its words: reject on
    the first window that has reached its cap, otherwise append [now] to the
    pruned sequence and store it under the client key. *)
Definition checkAndRecord (this : RateLimiter) (now : Z) (clientId : string)
    : CheckResult :=
  let sequence := stored this clientId in
  match firstExceeded (config this) now sequence with
  | Some w =>
      {| allowed := false;
         warned := [mkWarning w clientId (windowCount w now sequence) (capOf w (config this))];
         limiter := this |}
  | None =>
      {| allowed := true;
         warned := [];
         limiter :=
           {| requests :=
                <[clientId := filter (λ ts, now - ts < windowLength Day) sequence ++ [now]]>
                  (requests this);
              config := config this |} |}
  end.

(** A cap the specification calls invalid: not a positive number. *)
Definition nonPositive (x : number) : bool :=
  match x with
  | NaN => false
  | PosInfinity => false
  | NegInfinity => true
  | Fin q => Qle_bool q 0
  end.

Definition suppliesNonPositive (o : option number) : bool :=
  match o with
  | Some x => nonPositive x
  | None => false
  end.

Definition invalidConfig (config : option PartialConfig) : bool :=
  suppliesNonPositive (optField config optRequestsPerMinute)
  || suppliesNonPositive (optField config optRequestsPerHour)
  || suppliesNonPositive (optField config optRequestsPerDay).

(** A cap that bounds the requests: finite and above zero. *)
Definition finitePositive (x : number) : bool :=
  match x with
  | Fin q => negb (Qle_bool q 0)
  | _ => false
  end.

(** ** Further vocabulary for runs *)

(** Instants pairwise less than [w] milliseconds apart. *)
Definition withinSpan (w : Z) (ts : list Z) : Prop :=
  ∀ t t', t ∈ ts → t' ∈ ts → t' - t < w.

(** The instants of the calls of a run made by [clientId] and answered
    [true], in the order of the calls. *)
Fixpoint admittedInstants (clientId : string) (this : RateLimiter) (calls : list Call)
    : list Z :=
  match calls with
  | [] => []
  | (now, caller) :: rest =>
      let r := checkLimit this now caller in
      (if bool_decide (caller = clientId) && allowed r then [now] else [])
      ++ admittedInstants clientId (limiter r) rest
  end.

(** A cap that no count ever reaches: [n >= NaN] and [n >= Infinity] are
    false for every [n]. *)
Definition neverReached (x : number) : bool :=
  match x with
  | NaN | PosInfinity => true
  | _ => false
  end.


(** ** chat.ts, lines 14-95: the request handler

    What the handler takes from outside is made explicit: the value of the
    [x-forwarded-for] header, the instant read by [checkLimit], how the
    reading of the request body ends, and how [fetch] ends.  The
    [console.log] and [console.error] lines are left out: they influence
    neither the response nor the limiter. *)

(** An error value as the [catch] block reads it: [error.constructor.name],
    [error.name] and [error.message]. *)
Record JsError : Type := mkError {
  errConstructor : string;
  errName : string;
  errMessage : string
}.

(** [new Error(message)]. *)
Definition newError (message : string) : JsError :=
  mkError "Error" "Error" message.

(** [Error.prototype.toString], which [error.toString()] reaches for every
    error value. *)
Definition errorToString (e : JsError) : string :=
  if String.eqb (errName e) "" then errMessage e
  else if String.eqb (errMessage e) "" then errName e
  else errName e +:+ ": " +:+ errMessage e.

(** The body given to [new Response]: the object handed to
    [JSON.stringify], or the upstream body passed through. *)
Inductive ResponseBody : Type :=
  | JsonObject (fields : list (string * string))
  | Passthrough (upstream : string).

Record Response : Type := mkResponse {
  status : Z;
  headers : list (string * string);
  body : ResponseBody
}.

(** The call of [fetch] at lines 47-57; [reqMessages] is the [messages]
    value of the request body, kept as its JSON text. *)
Record UpstreamRequest : Type := mkUpstreamRequest {
  reqUrl : string;
  reqMethod : string;
  reqHeaders : list (string * string);
  reqModel : string;
  reqMessages : string;
  reqStream : bool;
  reqTemperature : Q;
  reqMaxTokens : Z
}.

(** What the handler reads of the upstream response: [status], [statusText],
    [body], and how [response.json()] ends (it throws, or yields a value,
    kept as the text [JSON.stringify] gives for it). *)
Record UpstreamResponse : Type := mkUpstreamResponse {
  upStatus : Z;
  statusText : string;
  upBody : string;
  upJson : JsError + string
}.

(** [response.ok]: the status is in the range 200-299. *)
Definition ok (r : UpstreamResponse) : bool :=
  bool_decide (200 <= upStatus r <= 299).

(** Lines 28-36, [await req.json()], the destructuring of [messages] and the
    log line that reads [messages.length]: one of them throws, or [messages]
    is obtained. *)
Inductive BodyOutcome : Type :=
  | BodyThrows (e : JsError)
  | BodyMessages (messages : string).

(** [await fetch(...)]: it throws (no response), or yields a response. *)
Inductive FetchOutcome : Type :=
  | FetchThrows (e : JsError)
  | FetchResponds (r : UpstreamResponse).

(** Line 16: [req.headers.get('x-forwarded-for') || 'anonymous']; [get]
    answers [null] for an absent header, and the empty string is falsy. *)
Definition clientIpOf (forwardedFor : option string) : string :=
  match forwardedFor with
  | Some s => if String.eqb s "" then "anonymous" else s
  | None => "anonymous"
  end.

(** Lines 20-25. *)
Definition rateLimited : Response :=
  {| status := 429;
     headers := [("Content-Type", "application/json")];
     body := JsonObject [("error", "Rate limit exceeded")] |}.

(** Lines 85-94.  The errors raised in the [try] block are [Error],
    [TypeError], [SyntaxError] and [DOMException] values, none of which has
    a [status] property: [error.status || 500] is 500. *)
Definition errorResponse (e : JsError) : Response :=
  {| status := 500;
     headers := [("Content-Type", "application/json")];
     body :=
       JsonObject
         [("error", if String.eqb (errMessage e) "" then "Internal Server Error"
                    else errMessage e);
          ("details", errorToString e);
          ("type", errConstructor e)] |}.

(** A template literal prints an unset variable as [undefined]. *)
Definition envText (env : gmap string string) (name : string) : string :=
  default "undefined" (env !! name).

(** Lines 38-45: the [OpenAI-Organization] header is added when the variable
    is set and not empty. *)
Definition upstreamHeaders (env : gmap string string) : list (string * string) :=
  [("Content-Type", "application/json");
   ("Authorization", "Bearer " +:+ envText env "VITE_OPENAI_API_KEY")]
  ++ match env !! "OPENAI_ORG_ID" with
     | Some org => if String.eqb org "" then [] else [("OpenAI-Organization", org)]
     | None => []
     end.

(** Lines 47-57. *)
Definition upstreamRequest (env : gmap string string) (messages : string)
    : UpstreamRequest :=
  {| reqUrl := "https://api.openai.com/v1/chat/completions";
     reqMethod := "POST";
     reqHeaders := upstreamHeaders env;
     reqModel := "gpt-3.5-turbo";
     reqMessages := messages;
     reqStream := true;
     reqTemperature := 7 # 10;
     reqMaxTokens := 1000 |}.

(** Lines 60-67: the message of the error thrown for a response that is not
    [ok]; the inner [catch] only logs. *)
Definition upstreamErrorMessage (r : UpstreamResponse) : string :=
  let errorMessage :=
    "OpenAI API error: " +:+ pretty (upStatus r) +:+ " " +:+ statusText r in
  match upJson r with
  | inr errorData => errorMessage +:+ " - " +:+ errorData
  | inl _ => errorMessage
  end.

(** Lines 71-77: [new Response] without a status has status 200. *)
Definition streamed (r : UpstreamResponse) : Response :=
  {| status := 200;
     headers := [("Content-Type", "text/event-stream");
                 ("Cache-Control", "no-cache");
                 ("Connection", "keep-alive")];
     body := Passthrough (upBody r) |}.

Record Handled : Type := mkHandled {
  response : Response;
  fetched : list UpstreamRequest;
  limiterAfter : RateLimiter
}.

(** Lines 14-95, on the state [this] of the module's [rateLimiter]. *)
Definition handler (env : gmap string string) (this : RateLimiter) (now : Z)
    (forwardedFor : option string) (reading : BodyOutcome) (net : FetchOutcome)
    : Handled :=
  let clientIp := clientIpOf forwardedFor in
  let isAllowed := checkLimit this now clientIp in
  if negb (allowed isAllowed) then
    {| response := rateLimited; fetched := []; limiterAfter := limiter isAllowed |}
  else
    match reading with
    | BodyThrows error =>
        {| response := errorResponse error; fetched := [];
           limiterAfter := limiter isAllowed |}
    | BodyMessages messages =>
        let request := upstreamRequest env messages in
        match net with
        | FetchThrows error =>
            {| response := errorResponse error; fetched := [request];
               limiterAfter := limiter isAllowed |}
        | FetchResponds r =>
            if negb (ok r) then
              {| response := errorResponse (newError (upstreamErrorMessage r));
                 fetched := [request]; limiterAfter := limiter isAllowed |}
            else
              {| response := streamed r; fetched := [request];
                 limiterAfter := limiter isAllowed |}
        end
    end.

(** One inbound request, with what the outside world answers to it. *)
Record Incoming : Type := mkIncoming {
  arrival : Z;
  forwardedFor : option string;
  reading : BodyOutcome;
  net : FetchOutcome
}.

(** The call of [checkLimit] an inbound request leads to. *)
Definition callOf (req : Incoming) : Call :=
  (arrival req, clientIpOf (forwardedFor req)).

(** The requests handled one after the other on the module's limiter; each
    response comes with the client key it was decided under. *)
Fixpoint serve (env : gmap string string) (this : RateLimiter) (reqs : list Incoming)
    : list (string * Response) :=
  match reqs with
  | [] => []
  | req :: rest =>
      let h := handler env this (arrival req) (forwardedFor req) (reading req) (net req) in
      (clientIpOf (forwardedFor req), response h) :: serve env (limiterAfter h) rest
  end.

(** ** ExploreView: the messages shown while an answer streams in

    The component source shipped in the same file keeps the transcript in
    the React state [messages], which starts empty (line 139) and is written
    at three places: [handleSearch] sets it when a search starts (line 173),
    the callback given to [streamExploreContent] updates it for every chunk
    (lines 176-186), and the [resetExplore] listener empties it (line 159).
    State updates are applied one after the other, in the order of the calls
    of [setMessages]. *)

Inductive Sender : Type := user | ai.

(** The entries of [topics] and of [questions] are records of three
    strings. *)
Record Message : Type := mkMessage {
  type : Sender;
  content : option string;
  topics : option (list (string * string * string));
  questions : option (list (string * string * string))
}.

Record StreamChunk : Type := mkChunk {
  chunkText : option string;
  chunkTopics : option (list (string * string * string));
  chunkQuestions : option (list (string * string * string))
}.

(** Line 173: [[{ type: 'user', content: query }, { type: 'ai', content: '' }]]. *)
Definition searchStarted (query : string) : list Message :=
  [mkMessage user (Some query) None None; mkMessage ai (Some ""%string) None None].

(** The message built from a chunk (lines 179-184). *)
Definition chunkMessage (chunk : StreamChunk) : Message :=
  mkMessage ai (chunkText chunk) (chunkTopics chunk) (chunkQuestions chunk).

(** Lines 177-185: [prev => [...prev.slice(0, -1), message]]; [slice(0, -1)]
    of an empty array is empty. *)
Definition chunkReceived (chunk : StreamChunk) (prev : list Message) : list Message :=
  take (length prev - 1) prev ++ [chunkMessage chunk].

(** The state after a search was started and the chunks came in, nothing
    else writing the state in between. *)
Definition messagesAfter (query : string) (chunks : list StreamChunk) : list Message :=
  foldl (λ messages chunk, chunkReceived chunk messages) (searchStarted query) chunks.

(** The three writers of [messages]: a search starts, a chunk of some
    stream arrives, the [resetExplore] event fires. *)
Inductive MessagesEvent : Type :=
  | Search (query : string)
  | Chunk (chunk : StreamChunk)
  | Reset.

Definition messagesStep (messages : list Message) (event : MessagesEvent)
    : list Message :=
  match event with
  | Search query => searchStarted query
  | Chunk chunk => chunkReceived chunk messages
  | Reset => []
  end.

(** The state of a component after the events, in their order. *)
Definition messagesOver (events : list MessagesEvent) : list Message :=
  foldl messagesStep [] events.

(** * Properties *)

Example constructor_overrides :
  constructor (Some (overrides 2 10 10)) = Normal (limiterOf (caps 2 10 10)).
Proof. reflexivity. Qed.

Example scenario_decisions :
  decisions (limiterOf (caps 2 10 10))
    [(1000, "A"%string); (1000, "A"%string); (1001, "A"%string); (1001, "B"%string)]
  = [true; true; false; true].
Proof. vm_compute. reflexivity. Qed.

Example decimal_examples :
  decimalStringToNumber "42" = ofZ 42
  /\ decimalStringToNumber "-7" = Fin (- inject_Z 7)
  /\ decimalStringToNumber "abc" = NaN
  /\ decimalStringToNumber "" = ofZ 0
  /\ decimalStringToNumber "Infinity" = PosInfinity.
Proof. vm_compute. repeat split; reflexivity. Qed.

(** ** Comparisons with a cap *)

Lemma count_ge_ofZ (n : nat) (z : Z) :
  count_ge n (ofZ z) = true <-> z <= Z.of_nat n.
Proof.
  unfold count_ge, ofZ. by rewrite Qle_bool_iff, <- Zle_Qle.
Qed.

Lemma count_ge_ofZ_false (n : nat) (z : Z) :
  count_ge n (ofZ z) = false <-> Z.of_nat n < z.
Proof.
  rewrite <- not_true_iff_false, count_ge_ofZ. lia.
Qed.

Lemma count_ge_mono (n n' : nat) (cap : number) :
  (n <= n')%nat -> count_ge n cap = true -> count_ge n' cap = true.
Proof.
  destruct cap as [| | |q]; simpl; try done.
  rewrite !Qle_bool_iff. intros Hn Hq.
  eapply Qle_trans; [exact Hq|]. rewrite <- Zle_Qle. lia.
Qed.

Lemma count_ge_nonPositive (n : nat) (cap : number) :
  nonPositive cap = true -> count_ge n cap = true.
Proof.
  destruct cap as [| | |q]; simpl; try done.
  rewrite !Qle_bool_iff. intros Hq.
  eapply Qle_trans; [exact Hq|]. change 0%Q with (inject_Z 0).
  rewrite <- Zle_Qle. lia.
Qed.

(** ** One call *)

Lemma checkLimit_config this now clientId :
  config (limiter (checkLimit this now clientId)) = config this.
Proof. unfold checkLimit. repeat case_match; reflexivity. Qed.

Lemma checkLimit_rejected this now clientId :
  allowed (checkLimit this now clientId) = false ->
  limiter (checkLimit this now clientId) = this.
Proof. unfold checkLimit. repeat case_match; simpl; done. Qed.

Lemma checkLimit_accepted this now clientId :
  allowed (checkLimit this now clientId) = true ->
  limiter (checkLimit this now clientId)
  = {| requests := <[clientId := pruned now (stored this clientId) ++ [now]]> (requests this);
       config := config this |}.
Proof. unfold checkLimit. repeat case_match; simpl; done. Qed.

Lemma checkLimit_accepted_iff this now clientId :
  let ts := pruned now (stored this clientId) in
  allowed (checkLimit this now clientId) = true
  <-> count_ge (lastMinute now ts) (requestsPerMinute (config this)) = false
      /\ count_ge (lastHour now ts) (requestsPerHour (config this)) = false
      /\ count_ge (lastDay ts) (requestsPerDay (config this)) = false.
Proof.
  unfold checkLimit.
  destruct (count_ge (lastMinute _ _) _), (count_ge (lastHour _ _) _),
    (count_ge (lastDay _) _); simpl; intuition congruence.
Qed.

Lemma stored_accepted this now clientId :
  allowed (checkLimit this now clientId) = true ->
  stored (limiter (checkLimit this now clientId)) clientId
  = pruned now (stored this clientId) ++ [now].
Proof.
  intros H. rewrite (checkLimit_accepted _ _ _ H). unfold stored at 1. simpl.
  by rewrite lookup_insert_eq.
Qed.

Lemma requests_other this now clientId other :
  clientId <> other ->
  requests (limiter (checkLimit this now clientId)) !! other = requests this !! other.
Proof.
  intros Hne. destruct (allowed (checkLimit this now clientId)) eqn:H.
  - rewrite (checkLimit_accepted _ _ _ H). simpl. by rewrite lookup_insert_ne.
  - by rewrite (checkLimit_rejected _ _ _ H).
Qed.

Lemma stored_other this now clientId other :
  clientId <> other ->
  stored (limiter (checkLimit this now clientId)) other = stored this other.
Proof. intros Hne. unfold stored. by rewrite requests_other. Qed.

(** The decision and the warnings of a call depend on the limiter only
    through its configuration and the record of the calling client. *)
Lemma checkLimit_local this this' now clientId :
  config this = config this' ->
  stored this clientId = stored this' clientId ->
  allowed (checkLimit this now clientId) = allowed (checkLimit this' now clientId)
  /\ warned (checkLimit this now clientId) = warned (checkLimit this' now clientId)
  /\ stored (limiter (checkLimit this now clientId)) clientId
     = stored (limiter (checkLimit this' now clientId)) clientId.
Proof.
  intros Hc Hs.
  assert (allowed (checkLimit this now clientId) = allowed (checkLimit this' now clientId)
          /\ warned (checkLimit this now clientId) = warned (checkLimit this' now clientId))
    as [Ha Hw].
  { unfold checkLimit. rewrite Hc, Hs. repeat case_match; done. }
  split; [done|]. split; [done|].
  destruct (allowed (checkLimit this' now clientId)) eqn:H'.
  - rewrite !stored_accepted by done. by rewrite Hs.
  - rewrite (checkLimit_rejected _ _ _ Ha), (checkLimit_rejected _ _ _ H'). done.
Qed.

(** ** Runs *)

Lemma run_cons this now clientId rest :
  run this ((now, clientId) :: rest)
  = (allowed (checkLimit this now clientId)
       :: decisions (limiter (checkLimit this now clientId)) rest,
     after (limiter (checkLimit this now clientId)) rest).
Proof.
  unfold decisions, after. simpl.
  by destruct (run (limiter (checkLimit this now clientId)) rest).
Qed.

Lemma decisions_cons this now clientId rest :
  decisions this ((now, clientId) :: rest)
  = allowed (checkLimit this now clientId)
      :: decisions (limiter (checkLimit this now clientId)) rest.
Proof. unfold decisions at 1. by rewrite run_cons. Qed.

Lemma after_cons this now clientId rest :
  after this ((now, clientId) :: rest)
  = after (limiter (checkLimit this now clientId)) rest.
Proof. unfold after at 1. by rewrite run_cons. Qed.

Lemma after_app this calls calls' :
  after this (calls ++ calls') = after (after this calls) calls'.
Proof.
  revert this. induction calls as [|[now c] calls IH]; intros this; [done|].
  simpl. by rewrite !after_cons, IH.
Qed.

Lemma decisions_app this calls calls' :
  decisions this (calls ++ calls')
  = decisions this calls ++ decisions (after this calls) calls'.
Proof.
  revert this. induction calls as [|[now c] calls IH]; intros this; [done|].
  simpl. by rewrite !decisions_cons, after_cons, IH.
Qed.

Lemma tagged_app this calls calls' :
  tagged this (calls ++ calls') = tagged this calls ++ tagged (after this calls) calls'.
Proof.
  revert this. induction calls as [|[now c] calls IH]; intros this; [done|].
  simpl. by rewrite after_cons, IH.
Qed.

Lemma after_config this calls : config (after this calls) = config this.
Proof.
  revert this. induction calls as [|[now c] calls IH]; intros this; [done|].
  by rewrite after_cons, IH, checkLimit_config.
Qed.

Lemma length_decisions this calls : length (decisions this calls) = length calls.
Proof.
  revert this. induction calls as [|[now c] calls IH]; intros this; [done|].
  rewrite decisions_cons. simpl. by rewrite IH.
Qed.

(** ** Windows *)

Lemma pruned_idem now timestamps : pruned now (pruned now timestamps) = pruned now timestamps.
Proof. unfold pruned. by apply list_filter_filter_l. Qed.

Lemma windowCount_Minute now timestamps :
  windowCount Minute now timestamps = lastMinute now (pruned now timestamps).
Proof. reflexivity. Qed.

Lemma windowCount_Hour now timestamps :
  windowCount Hour now timestamps = lastHour now (pruned now timestamps).
Proof. reflexivity. Qed.

Lemma windowCount_Day now timestamps :
  windowCount Day now timestamps = lastDay (pruned now timestamps).
Proof.
  unfold windowCount, lastDay. f_equal. apply (pruned_idem now timestamps).
Qed.

Lemma firstExceeded_Some c now timestamps w :
  firstExceeded c now timestamps = Some w
  <-> exceeded c now timestamps w = true
      /\ ∀ w', precedes w' w = true -> exceeded c now timestamps w' = false.
Proof.
  unfold firstExceeded. simpl. split.
  - intros H.
    destruct (exceeded c now timestamps Minute) eqn:Hm;
      [|destruct (exceeded c now timestamps Hour) eqn:Hh;
        [|destruct (exceeded c now timestamps Day) eqn:Hd]];
      simplify_eq; split; try done; by intros [].
  - intros [Hw Hfirst].
    destruct w.
    + by rewrite Hw.
    + by rewrite (Hfirst Minute eq_refl), Hw.
    + by rewrite (Hfirst Minute eq_refl), (Hfirst Hour eq_refl), Hw.
Qed.

Lemma firstExceeded_None c now timestamps :
  firstExceeded c now timestamps = None
  <-> ∀ w, exceeded c now timestamps w = false.
Proof.
  unfold firstExceeded. simpl. split.
  - intros H w. destruct (exceeded c now timestamps Minute) eqn:Hm; [done|].
    destruct (exceeded c now timestamps Hour) eqn:Hh; [done|].
    destruct (exceeded c now timestamps Day) eqn:Hd; [done|]. by destruct w.
  - intros H. by rewrite !H.
Qed.

Lemma checkLimit_checkAndRecord this now clientId :
  checkLimit this now clientId = checkAndRecord this now clientId.
Proof.
  unfold checkLimit, checkAndRecord, firstExceeded, exceeded. simpl.
  rewrite windowCount_Minute, windowCount_Hour, windowCount_Day.
  repeat case_match; rewrite ?windowCount_Day; reflexivity.
Qed.

Lemma minute_lt_day : minute < day.
Proof. reflexivity. Qed.

Lemma hour_lt_day : hour < day.
Proof. reflexivity. Qed.

Lemma minute_lt_hour : minute < hour.
Proof. reflexivity. Qed.

Lemma lastMinute_pruned now timestamps :
  lastMinute now (pruned now timestamps) = lastMinute now timestamps.
Proof.
  unfold lastMinute, pruned. f_equal. apply list_filter_filter_l.
  intros ts. pose proof minute_lt_day. lia.
Qed.

Lemma lastHour_pruned now timestamps :
  lastHour now (pruned now timestamps) = lastHour now timestamps.
Proof.
  unfold lastHour, pruned. f_equal. apply list_filter_filter_l.
  intros ts. pose proof hour_lt_day. lia.
Qed.

(** Pruning at an instant [t] close to [now] keeps every timestamp that is
    in the minute window of [now]. *)
Lemma lastMinute_pruned_near now t timestamps :
  t - now < minute ->
  lastMinute now (pruned t timestamps) = lastMinute now timestamps.
Proof.
  intros Ht. unfold lastMinute, pruned. f_equal. apply list_filter_filter_l.
  intros ts. unfold minute, day, hour, minute in *. lia.
Qed.

Lemma lastMinute_app now l l' :
  lastMinute now (l ++ l') = (lastMinute now l + lastMinute now l')%nat.
Proof. unfold lastMinute. by rewrite filter_app, length_app. Qed.

Lemma pruned_all now timestamps :
  Forall (λ ts, now - ts < day) timestamps -> pruned now timestamps = timestamps.
Proof.
  unfold pruned. induction 1 as [|ts l Hts _ IH]; [done|].
  by rewrite filter_cons_True, IH.
Qed.

Lemma pruned_none now timestamps :
  Forall (λ ts, day <= now - ts) timestamps -> pruned now timestamps = [].
Proof.
  unfold pruned. induction 1 as [|ts l Hts _ IH]; [done|].
  rewrite filter_cons_False by lia. exact IH.
Qed.

Lemma lastMinute_all now timestamps :
  Forall (λ ts, now - ts < minute) timestamps ->
  lastMinute now timestamps = length timestamps.
Proof.
  unfold lastMinute. induction 1 as [|ts l Hts _ IH]; [done|].
  rewrite filter_cons_True by done. simpl. by rewrite IH.
Qed.

Lemma lastHour_all now timestamps :
  Forall (λ ts, now - ts < minute) timestamps ->
  lastHour now timestamps = length timestamps.
Proof.
  unfold lastHour. induction 1 as [|ts l Hts _ IH]; [done|].
  rewrite filter_cons_True by (pose proof minute_lt_hour; lia).
  simpl. by rewrite IH.
Qed.

(** ** Admissions of a run *)

Lemma admissions_nil clientId this : admissions clientId this [] = 0%nat.
Proof. reflexivity. Qed.

Lemma admissions_cons clientId this now caller rest :
  admissions clientId this ((now, caller) :: rest)
  = ((if decide ((caller, allowed (checkLimit this now caller)) = (clientId, true))
      then 1 else 0)
     + admissions clientId (limiter (checkLimit this now caller)) rest)%nat.
Proof.
  unfold admissions. simpl tagged. rewrite filter_cons.
  case_decide; reflexivity.
Qed.

Lemma admissions_app clientId this calls calls' :
  admissions clientId this (calls ++ calls')
  = (admissions clientId this calls + admissions clientId (after this calls) calls')%nat.
Proof. unfold admissions. by rewrite tagged_app, filter_app, length_app. Qed.

(** One call at an instant close to [now] adds its own timestamp to the
    minute window of [now] when it is admitted, and nothing else changes
    in that window. *)
Lemma lastMinute_after_call this now t caller clientId :
  now - t < minute -> t - now < minute ->
  lastMinute now (stored (limiter (checkLimit this t caller)) clientId)
  = (lastMinute now (stored this clientId)
     + (if decide ((caller, allowed (checkLimit this t caller)) = (clientId, true))
        then 1 else 0))%nat.
Proof.
  intros Hnow Ht. case_decide as Hadm.
  - injection Hadm as -> Ha. rewrite stored_accepted by done.
    rewrite lastMinute_app, lastMinute_pruned_near by done.
    f_equal. unfold lastMinute. by rewrite filter_cons_True.
  - destruct (decide (caller = clientId)) as [->|Hne].
    + destruct (allowed (checkLimit this t clientId)) eqn:Ha; [done|].
      rewrite (checkLimit_rejected _ _ _ Ha). lia.
    + rewrite stored_other by done. lia.
Qed.

Lemma lastMinute_after_run now clientId calls : ∀ this,
  Forall (λ t, now - t < minute /\ t - now < minute) calls.*1 ->
  lastMinute now (stored (after this calls) clientId)
  = (lastMinute now (stored this clientId) + admissions clientId this calls)%nat.
Proof.
  induction calls as [|[t caller] calls IH]; intros this Hspan.
  - unfold after. simpl. rewrite admissions_nil. lia.
  - rewrite fmap_cons in Hspan. apply Forall_cons in Hspan as [[Hnow Ht] Hspan].
    rewrite after_cons, admissions_cons, IH by done.
    rewrite lastMinute_after_call by done. lia.
Qed.

Lemma withinOneMinute_Forall now ts :
  withinOneMinute (now :: ts) ->
  Forall (λ t, now - t < minute /\ t - now < minute) ts.
Proof.
  intros H. apply Forall_forall. intros t Ht.
  split; apply H; set_solver.
Qed.

Lemma withinOneMinute_sub ts ts' :
  ts' ⊆ ts -> withinOneMinute ts -> withinOneMinute ts'.
Proof. intros Hsub H t t' Ht Ht'. apply H; by apply Hsub. Qed.

(** Once the minute window of [now] holds as many timestamps as the cap,
    the call is rejected. *)
Lemma checkLimit_minute_full this now clientId (C : nat) :
  requestsPerMinute (config this) = ofZ (Z.of_nat C) ->
  (C <= lastMinute now (stored this clientId))%nat ->
  allowed (checkLimit this now clientId) = false.
Proof.
  intros Hcap Hfull. apply not_true_iff_false.
  intros (Hm & _ & _)%checkLimit_accepted_iff.
  rewrite Hcap, lastMinute_pruned in Hm. apply count_ge_ofZ_false in Hm. lia.
Qed.

Lemma checkLimit_minute_room this now clientId (C : nat) :
  requestsPerMinute (config this) = ofZ (Z.of_nat C) ->
  allowed (checkLimit this now clientId) = true ->
  (lastMinute now (stored this clientId) < C)%nat.
Proof.
  intros Hcap (Hm & _ & _)%checkLimit_accepted_iff.
  rewrite Hcap, lastMinute_pruned in Hm. apply count_ge_ofZ_false in Hm. lia.
Qed.

(** Within one span shorter than a minute, a client is admitted at most as
    many times as the minute cap, whatever the limiter held before. *)
Lemma admissions_le_cap clientId (C : nat) calls : ∀ this,
  requestsPerMinute (config this) = ofZ (Z.of_nat C) ->
  withinOneMinute calls.*1 ->
  (admissions clientId this calls <= C)%nat.
Proof.
  induction calls as [|[t caller] calls IH] using rev_ind; intros this Hcap Hspan.
  - rewrite admissions_nil. lia.
  - rewrite admissions_app, admissions_cons, admissions_nil.
    assert (withinOneMinute calls.*1) as Hspan'.
    { eapply withinOneMinute_sub; [|exact Hspan].
      rewrite fmap_app. intros x Hx. apply elem_of_app. by left. }
    specialize (IH this Hcap Hspan').
    case_decide as Hadm; [|lia].
    injection Hadm as -> Ha.
    apply (checkLimit_minute_room _ _ _ C) in Ha; [|by rewrite after_config].
    rewrite lastMinute_after_run in Ha; [lia|].
    apply withinOneMinute_Forall.
    eapply withinOneMinute_sub; [|exact Hspan].
    rewrite fmap_app. intros x [->|Hx]%elem_of_cons; apply elem_of_app.
    + right. simpl. apply elem_of_cons. by left.
    + by left.
Qed.

(** ** Rejected calls *)

(** C2. When [checkLimit] returns [false], nothing is stored: the limiter is
    exactly what it was, so the record of every client is unchanged and every
    later call, of any client at any instant, is decided as if the rejected
    call had never been made. *)
Theorem rejected_call_not_recorded this now clientId :
  allowed (checkLimit this now clientId) = false ->
  limiter (checkLimit this now clientId) = this
  /\ (∀ other, stored (limiter (checkLimit this now clientId)) other = stored this other)
  /\ (∀ later, decisions this ((now, clientId) :: later) = false :: decisions this later)
  /\ (∀ later, after this ((now, clientId) :: later) = after this later).
Proof.
  intros Hrej. pose proof (checkLimit_rejected _ _ _ Hrej) as Hsame.
  split; [done|]. split; [by rewrite Hsame|]. split; intros later.
  - by rewrite decisions_cons, Hrej, Hsame.
  - by rewrite after_cons, Hsame.
Qed.

Lemma rejected_call_not_recorded_witness :
  let this := after (limiterOf (caps 2 10 10)) [(1000, "A"%string); (1000, "A"%string)] in
  allowed (checkLimit this 1001 "A") = false
  /\ limiter (checkLimit this 1001 "A") = this
  /\ decisions this [(1001, "A"%string); (1002, "B"%string)]
     = false :: decisions this [(1002, "B"%string)].
Proof.
  intros this.
  assert (allowed (checkLimit this 1001 "A") = false) as Hrej by (vm_compute; reflexivity).
  destruct (rejected_call_not_recorded this 1001 "A"%string Hrej) as (Hsame & _ & Hlater & _).
  split; [exact Hrej|]. split; [exact Hsame|]. apply Hlater.
Defined.

(** ** Order of the windows *)

(** C3. [checkLimit] is the procedure of the specification: it rejects on the
    first window, in the order minute, hour, day, whose count has reached its
    cap, warns about that window alone and leaves the later windows
    unchecked; it admits and records when no window has reached its cap.  No
    relation between the three caps is assumed. *)
Theorem windows_checked_in_order this now clientId :
  checkLimit this now clientId = checkAndRecord this now clientId
  /\ (∀ w,
        exceeded (config this) now (stored this clientId) w = true ->
        (∀ w', precedes w' w = true ->
               exceeded (config this) now (stored this clientId) w' = false) ->
        allowed (checkLimit this now clientId) = false
        /\ warned (checkLimit this now clientId)
           = [mkWarning w clientId (windowCount w now (stored this clientId))
                (capOf w (config this))])
  /\ ((∀ w, exceeded (config this) now (stored this clientId) w = false) ->
      allowed (checkLimit this now clientId) = true
      /\ warned (checkLimit this now clientId) = []).
Proof.
  split; [apply checkLimit_checkAndRecord|]. split.
  - intros w Hw Hfirst. rewrite checkLimit_checkAndRecord. unfold checkAndRecord.
    assert (firstExceeded (config this) now (stored this clientId) = Some w) as ->
      by (by apply firstExceeded_Some).
    done.
  - intros Hnone. rewrite checkLimit_checkAndRecord. unfold checkAndRecord.
    assert (firstExceeded (config this) now (stored this clientId) = None) as ->
      by (by apply firstExceeded_None).
    done.
Qed.

(** The minute cap is larger than the hour cap here, and the hour and the
    day window are both full: the warning names the hour window only. *)
Lemma windows_checked_in_order_witness :
  let this := after (limiterOf (caps 5 2 2)) [(0, "A"%string); (1, "A"%string)] in
  allowed (checkLimit this 2 "A") = false
  /\ warned (checkLimit this 2 "A") = [mkWarning Hour "A" 2 (ofZ 2)].
Proof.
  intros this.
  apply (proj1 (proj2 (windows_checked_in_order this 2 "A"%string)) Hour).
  - vm_compute. reflexivity.
  - intros [] Hw; try discriminate Hw. vm_compute. reflexivity.
Defined.

(** ** Pruning of the stored record *)

(** C4, as the code has it. An admitted call stores the pruned sequence with
    the new instant appended, so the stored record then holds no timestamp
    aged 24 hours or more; a rejected call stores nothing, and the record
    stays what it was (the pruned sequence only served the counts of that
    call). *)
Theorem record_pruned_on_acceptance this now clientId :
  (allowed (checkLimit this now clientId) = true ->
   stored (limiter (checkLimit this now clientId)) clientId
   = pruned now (stored this clientId) ++ [now]
   /\ ∀ ts, ts ∈ stored (limiter (checkLimit this now clientId)) clientId ->
            now - ts < day)
  /\ (allowed (checkLimit this now clientId) = false ->
      stored (limiter (checkLimit this now clientId)) clientId = stored this clientId).
Proof.
  split.
  - intros Hadm. rewrite stored_accepted by done. split; [done|].
    intros ts [Hts| ->%list_elem_of_singleton]%elem_of_app.
    + unfold pruned in Hts. by apply list_elem_of_filter in Hts as [? _].
    + unfold day, hour, minute. lia.
  - intros Hrej. by rewrite (checkLimit_rejected _ _ _ Hrej).
Qed.

Lemma record_pruned_on_acceptance_witness :
  let this := after (limiterOf (caps 1 10 10)) [(0, "A"%string); (86390000, "A"%string)] in
  stored (limiter (checkLimit this 86460000 "A")) "A" = [86390000; 86460000]
  /\ stored (limiter (checkLimit this 86400001 "A")) "A" = stored this "A".
Proof.
  intros this. split.
  - refine (proj1 (proj1 (record_pruned_on_acceptance this 86460000 "A"%string) _)).
    vm_compute. reflexivity.
  - apply (proj2 (record_pruned_on_acceptance this 86400001 "A"%string)).
    vm_compute. reflexivity.
Defined.

(** The claim C4 as the specification words it fails on a rejected call:
    client "A" is admitted at 0 and at 86 390 000 under caps 1, 10, 10; the
    call at 86 400 001 is rejected by the minute window, and the stored
    record still holds the timestamp 0, then older than 24 hours. *)
Lemma stale_record_after_rejection :
  let this := after (limiterOf (caps 1 10 10)) [(0, "A"%string); (86390000, "A"%string)] in
  let r := checkLimit this 86400001 "A" in
  allowed r = false
  /\ stored (limiter r) "A" = [0; 86390000]
  /\ ¬ (∀ ts, ts ∈ stored (limiter r) "A" -> 86400001 - ts <= day).
Proof.
  intros this r.
  assert (stored (limiter r) "A" = [0; 86390000]) as Hst by (vm_compute; reflexivity).
  split; [vm_compute; reflexivity|]. split; [exact Hst|].
  intros Hall. specialize (Hall 0). rewrite Hst in Hall.
  assert (86400001 - 0 <= day) as Hle by (apply Hall; apply elem_of_cons; by left).
  vm_compute in Hle. by apply Hle.
Qed.

(** ** Requests more than a day apart *)

(** The decision and the warnings of a call depend on the stored record only
    through what is left of it after pruning. *)
Lemma checkLimit_pruned_local this this' now clientId :
  config this = config this' ->
  pruned now (stored this clientId) = pruned now (stored this' clientId) ->
  allowed (checkLimit this now clientId) = allowed (checkLimit this' now clientId)
  /\ warned (checkLimit this now clientId) = warned (checkLimit this' now clientId).
Proof.
  intros Hc Hs. unfold checkLimit. rewrite Hc, Hs. repeat case_match; done.
Qed.

Lemma count_ge_zero_false (n : nat) (cap : number) :
  count_ge n cap = false -> count_ge 0 cap = false.
Proof.
  intros Hn. apply not_true_iff_false. intros H0.
  apply (count_ge_mono 0 n) in H0; [congruence|lia].
Qed.

(** C5. Let a request of a client be admitted at [t], the record of that
    client holding nothing later than [t].  At any instant more than 24 hours
    after [t] (so at [t + 24h + 1ms]) the pruned history of that client is
    empty, the three counts are zero, and the call is decided, and leaves the
    record, exactly as for a client the limiter has never seen. *)
Theorem day_old_history_forgotten this clientId t now :
  Forall (λ ts, ts <= t) (stored this clientId) ->
  allowed (checkLimit this t clientId) = true ->
  day < now - t ->
  let seen := limiter (checkLimit this t clientId) in
  let unseen := mkLimiter (delete clientId (requests this)) (config this) in
  pruned now (stored seen clientId) = []
  /\ lastMinute now (pruned now (stored seen clientId)) = 0%nat
  /\ lastHour now (pruned now (stored seen clientId)) = 0%nat
  /\ lastDay (pruned now (stored seen clientId)) = 0%nat
  /\ allowed (checkLimit seen now clientId) = allowed (checkLimit unseen now clientId)
  /\ warned (checkLimit seen now clientId) = warned (checkLimit unseen now clientId)
  /\ stored (limiter (checkLimit seen now clientId)) clientId
     = stored (limiter (checkLimit unseen now clientId)) clientId
  /\ stored (limiter (checkLimit seen now clientId)) clientId = [now].
Proof.
  intros Hpast Hadm Hlate seen unseen.
  assert (pruned now (stored seen clientId) = []) as Hempty.
  { unfold seen. rewrite stored_accepted by done. apply pruned_none.
    apply Forall_app. split.
    - apply Forall_forall. intros ts Hts. unfold pruned in Hts.
      apply list_elem_of_filter in Hts as [_ Hts].
      rewrite Forall_forall in Hpast. specialize (Hpast ts Hts). lia.
    - apply Forall_cons. split; [lia|constructor]. }
  assert (stored unseen clientId = []) as Hunseen.
  { unfold unseen, stored. simpl. by rewrite lookup_delete_eq. }
  assert (config seen = config unseen) as Hcfg.
  { unfold seen, unseen. by rewrite checkLimit_config. }
  assert (pruned now (stored seen clientId) = pruned now (stored unseen clientId)) as Hpr.
  { by rewrite Hempty, Hunseen. }
  destruct (checkLimit_pruned_local seen unseen now clientId Hcfg Hpr) as [Ha Hw].
  assert (allowed (checkLimit seen now clientId) = true) as Hnow.
  { apply checkLimit_accepted_iff. rewrite Hempty.
    apply checkLimit_accepted_iff in Hadm as (Hm & Hh & Hd).
    unfold seen. rewrite checkLimit_config.
    split; [|split]; eapply count_ge_zero_false; eassumption. }
  rewrite Hempty. repeat split; try done.
  - rewrite !stored_accepted by congruence. by rewrite Hpr.
  - rewrite stored_accepted by done. by rewrite Hempty.
Qed.

Lemma day_old_history_forgotten_witness :
  let this := limiterOf (caps 2 10 10) in
  let seen := limiter (checkLimit this 1000 "A") in
  stored seen "A" = [1000]
  /\ pruned (1000 + 86400000 + 1) (stored seen "A") = []
  /\ allowed (checkLimit seen (1000 + 86400000 + 1) "A") = true.
Proof.
  intros this seen. split; [vm_compute; reflexivity|].
  assert (Forall (λ ts, ts <= 1000) (stored this "A")) as Hpast by constructor.
  assert (allowed (checkLimit this 1000 "A") = true) as Hadm by (vm_compute; reflexivity).
  assert (day < 1000 + 86400000 + 1 - 1000) as Hlate by (vm_compute; reflexivity).
  destruct (day_old_history_forgotten this "A"%string 1000 (1000 + 86400000 + 1)
              Hpast Hadm Hlate) as (Hempty & _ & _ & _ & Ha & _).
  split; [exact Hempty|]. unfold seen. rewrite Ha. vm_compute. reflexivity.
Defined.

(** ** Distinct clients *)

Lemma stored_after_others clientId calls : ∀ this,
  Forall (λ call : Call, call.2 ≠ clientId) calls ->
  stored (after this calls) clientId = stored this clientId.
Proof.
  induction calls as [|[t caller] calls IH]; intros this Hothers; [done|].
  apply Forall_cons in Hothers as [Hne Hothers]. simpl in Hne.
  by rewrite after_cons, IH, stored_other.
Qed.

Lemma decisions_local clientId calls : ∀ this this',
  config this = config this' ->
  stored this clientId = stored this' clientId ->
  Forall (λ call : Call, call.2 = clientId) calls ->
  decisions this calls = decisions this' calls.
Proof.
  induction calls as [|[t caller] calls IH]; intros this this' Hc Hs Hown; [done|].
  apply Forall_cons in Hown as [Heq Hown]. simpl in Heq. subst caller.
  destruct (checkLimit_local this this' t clientId Hc Hs) as (Ha & _ & Hs').
  rewrite !decisions_cons, Ha. f_equal.
  apply IH; [by rewrite !checkLimit_config|done|done].
Qed.

(** The decisions a client receives in a run where its calls are interleaved
    with calls of other clients are those of the run of its own calls. *)
Lemma decisions_of_client clientId calls : ∀ this this',
  config this = config this' ->
  stored this clientId = stored this' clientId ->
  (filter (λ p : string * bool, p.1 = clientId) (tagged this calls)).*2
  = decisions this' (filter (λ call : Call, call.2 = clientId) calls).
Proof.
  induction calls as [|[t caller] calls IH]; intros this this' Hc Hs; [done|].
  simpl tagged. rewrite !filter_cons. simpl.
  destruct (decide (caller = clientId)) as [->|Hne].
  - destruct (checkLimit_local this this' t clientId Hc Hs) as (Ha & _ & Hs').
    rewrite fmap_cons, decisions_cons. simpl. rewrite Ha. f_equal.
    apply IH; [by rewrite !checkLimit_config|done].
  - apply IH; [by rewrite checkLimit_config|by rewrite stored_other].
Qed.

(** A client that starts with a record whose timestamps all lie within one
    span shorter than a minute, together with the instants of its calls, is
    admitted until one of the three caps is reached and rejected from then
    on. *)
Lemma burst_decisions clientId (m h d : nat) calls : ∀ this,
  config this = caps (Z.of_nat m) (Z.of_nat h) (Z.of_nat d) ->
  Forall (λ call : Call, call.2 = clientId) calls ->
  withinOneMinute (stored this clientId ++ calls.*1) ->
  decisions this calls
  = replicate (length calls `min` (m `min` (h `min` d) - length (stored this clientId))) true
    ++ replicate (length calls - (m `min` (h `min` d) - length (stored this clientId))) false.
Proof.
  induction calls as [|[t caller] calls IH]; intros this Hcfg Hown Hspan; [done|].
  apply Forall_cons in Hown as [Heq Hown]. simpl in Heq. subst caller.
  set (k := length (stored this clientId)).
  assert (Forall (λ ts, t - ts < minute) (stored this clientId)) as Hnear.
  { apply Forall_forall. intros ts Hts. apply Hspan.
    - apply elem_of_app. by left.
    - apply elem_of_app. right. rewrite fmap_cons. apply elem_of_cons. by left. }
  assert (pruned t (stored this clientId) = stored this clientId) as Hpr.
  { apply pruned_all. eapply Forall_impl; [exact Hnear|].
    intros ts. simpl. pose proof minute_lt_day. lia. }
  pose proof (checkLimit_accepted_iff this t clientId) as Hiff. cbv zeta in Hiff.
  rewrite Hpr, lastMinute_all, lastHour_all in Hiff by done.
  unfold lastDay in Hiff. rewrite Hcfg in Hiff. unfold caps in Hiff.
  cbn [requestsPerMinute requestsPerHour requestsPerDay] in Hiff. fold k in Hiff.
  rewrite !count_ge_ofZ_false in Hiff.
  rewrite decisions_cons.
  destruct (allowed (checkLimit this t clientId)) eqn:Ha.
  - assert (k < m `min` (h `min` d))%nat as Hk by (apply proj1 in Hiff; lia).
    rewrite IH; [|by rewrite checkLimit_config|done|].
    + rewrite stored_accepted, Hpr, length_app by done. simpl length. fold k.
      replace (m `min` (h `min` d) - k)%nat
        with (S (m `min` (h `min` d) - (k + 1)))%nat by lia.
      reflexivity.
    + rewrite stored_accepted, Hpr by done.
      eapply withinOneMinute_sub; [|exact Hspan].
      intros x. rewrite fmap_cons, !elem_of_app, !elem_of_cons, elem_of_nil.
      tauto.
  - assert (m `min` (h `min` d) <= k)%nat as Hk.
    { destruct (decide (k < m `min` (h `min` d))%nat) as [Hlt|]; [|lia].
      assert (false = true) by (apply Hiff; lia). done. }
    rewrite (checkLimit_rejected _ _ _ Ha).
    rewrite IH; [|done|done|].
    + fold k. replace (m `min` (h `min` d) - k)%nat with 0%nat by lia.
      rewrite !Nat.min_0_r, !Nat.sub_0_r. reflexivity.
    + eapply withinOneMinute_sub; [|exact Hspan].
      intros x. rewrite fmap_cons, !elem_of_app, elem_of_cons. tauto.
Qed.

Lemma checkLimit_unseen (c : RateLimitConfig) now clientId :
  allowed (checkLimit (limiterOf c) now clientId)
  = negb (count_ge 0 (requestsPerMinute c))
    && negb (count_ge 0 (requestsPerHour c))
    && negb (count_ge 0 (requestsPerDay c)).
Proof.
  unfold checkLimit, stored, limiterOf. simpl. rewrite lookup_empty. simpl.
  change (lastMinute now (pruned now [])) with 0%nat.
  change (lastHour now (pruned now [])) with 0%nat.
  change (lastDay (pruned now [])) with 0%nat.
  destruct (count_ge 0 (requestsPerMinute c)), (count_ge 0 (requestsPerHour c)),
    (count_ge 0 (requestsPerDay c)); reflexivity.
Qed.

Lemma scenario_burst (t1 t2 t3 : Z) :
  withinOneMinute [t1; t2; t3] ->
  decisions (limiterOf (caps 2 10 10))
    [(t1, "A"%string); (t2, "A"%string); (t3, "A"%string)]
  = [true; true; false].
Proof.
  intros Hspan.
  rewrite (burst_decisions "A"%string 2 10 10).
  - vm_compute. reflexivity.
  - reflexivity.
  - repeat constructor.
  - exact Hspan.
Qed.

(** C7. Calls made by a client [A] leave the record of every other client
    [B] untouched, so the next call of [B], and every later sequence of
    calls of [B], is decided as if [A] had made no call; more generally the
    decisions [B] receives in a run interleaved with calls of other clients
    are those of the run of its own calls alone.  In the scenario of the
    specification (caps 2, 10, 10, three calls of "A" within one span, the
    third rejected), a call of another client is admitted. *)
Theorem clients_do_not_share_quota :
  (∀ this (A B : string) (callsA : list Call) (now : Z),
      A ≠ B ->
      Forall (λ call : Call, call.2 = A) callsA ->
      stored (after this callsA) B = stored this B
      /\ allowed (checkLimit (after this callsA) now B) = allowed (checkLimit this now B)
      /\ warned (checkLimit (after this callsA) now B) = warned (checkLimit this now B)
      /\ ∀ callsB, Forall (λ call : Call, call.2 = B) callsB ->
                   decisions (after this callsA) callsB = decisions this callsB)
  /\ (∀ this (B : string) (calls : list Call),
        (filter (λ p : string * bool, p.1 = B) (tagged this calls)).*2
        = decisions this (filter (λ call : Call, call.2 = B) calls))
  /\ (∀ (B : string) (t1 t2 t3 t4 : Z),
        B ≠ "A"%string ->
        withinOneMinute [t1; t2; t3] ->
        decisions (limiterOf (caps 2 10 10))
          [(t1, "A"%string); (t2, "A"%string); (t3, "A"%string); (t4, B)]
        = [true; true; false; true]).
Proof.
  assert (∀ this (A B : string) (callsA : list Call),
            A ≠ B -> Forall (λ call : Call, call.2 = A) callsA ->
            stored (after this callsA) B = stored this B) as Hstored.
  { intros this A B callsA Hne HA. apply stored_after_others.
    eapply Forall_impl; [exact HA|]. intros call. simpl. congruence. }
  split.
  - intros this A B callsA now Hne HA.
    pose proof (Hstored this A B callsA Hne HA) as Hs.
    pose proof (after_config this callsA) as Hc.
    destruct (checkLimit_local _ _ now B Hc Hs) as (Ha & Hw & _).
    repeat split; try done.
    intros callsB HB. by apply (decisions_local B).
  - split; [intros this B calls; by apply decisions_of_client|].
    intros B t1 t2 t3 t4 Hne Hspan.
    change [(t1, "A"%string); (t2, "A"%string); (t3, "A"%string); (t4, B)]
      with ([(t1, "A"%string); (t2, "A"%string); (t3, "A"%string)] ++ [(t4, B)]).
    rewrite decisions_app, scenario_burst by done.
    rewrite decisions_cons. simpl. do 4 f_equal.
    set (callsA := [(t1, "A"%string); (t2, "A"%string); (t3, "A"%string)]).
    assert (Forall (λ call : Call, call.2 = "A"%string) callsA) as HA
      by (repeat constructor).
    pose proof (Hstored (limiterOf (caps 2 10 10)) "A"%string B callsA
                  (not_eq_sym Hne) HA) as Hs.
    pose proof (after_config (limiterOf (caps 2 10 10)) callsA) as Hc.
    destruct (checkLimit_local _ _ t4 B Hc Hs) as (-> & _).
    by rewrite checkLimit_unseen.
Qed.

Lemma clients_do_not_share_quota_witness :
  decisions (limiterOf (caps 2 10 10))
    [(1000, "A"%string); (1000, "A"%string); (1000, "A"%string); (1000, "B"%string)]
  = [true; true; false; true]
  /\ allowed (checkLimit
               (after (limiterOf (caps 2 10 10))
                  [(1000, "A"%string); (1000, "A"%string); (1000, "A"%string)])
               1000 "B")
     = allowed (checkLimit (limiterOf (caps 2 10 10)) 1000 "B").
Proof.
  split.
  - apply (proj2 (proj2 clients_do_not_share_quota) "B"%string 1000 1000 1000 1000).
    + discriminate.
    + intros t t' Ht Ht'.
      repeat (apply elem_of_cons in Ht as [->|Ht]); try (by apply elem_of_nil in Ht);
      repeat (apply elem_of_cons in Ht' as [->|Ht']); try (by apply elem_of_nil in Ht');
      reflexivity.
  - apply (proj1 clients_do_not_share_quota _ "A"%string "B"%string).
    + discriminate.
    + repeat constructor.
Defined.

(** ** The minute cap *)

(** C1. With a minute cap [C], once a client has been admitted [C] times by
    calls that lie, together with the next call, in one span shorter than a
    minute, that next call returns [false]; within such a span a client is
    never admitted more than [C] times, whatever the limiter held before;
    and under caps 2, 10, 10 three calls of client "A" within one span are
    answered [true; true; false]. *)
Theorem minute_cap_enforced :
  (∀ this (clientId : string) (C : nat) (calls : list Call) (now : Z),
      requestsPerMinute (config this) = ofZ (Z.of_nat C) ->
      withinOneMinute (now :: calls.*1) ->
      admissions clientId this calls = C ->
      allowed (checkLimit (after this calls) now clientId) = false)
  /\ (∀ this (clientId : string) (C : nat) (calls : list Call),
        requestsPerMinute (config this) = ofZ (Z.of_nat C) ->
        withinOneMinute calls.*1 ->
        (admissions clientId this calls <= C)%nat)
  /\ (constructor (Some (overrides 2 10 10)) = Normal (limiterOf (caps 2 10 10))
      /\ ∀ t1 t2 t3 : Z,
           withinOneMinute [t1; t2; t3] ->
           decisions (limiterOf (caps 2 10 10))
             [(t1, "A"%string); (t2, "A"%string); (t3, "A"%string)]
           = [true; true; false]).
Proof.
  split; [|split].
  - intros this clientId C calls now Hcap Hspan Hadm.
    apply (checkLimit_minute_full _ _ _ C); [by rewrite after_config|].
    rewrite (lastMinute_after_run now clientId calls this)
      by (by apply withinOneMinute_Forall).
    lia.
  - intros this clientId C calls Hcap Hspan. by apply admissions_le_cap.
  - split; [reflexivity|]. apply scenario_burst.
Qed.

Lemma minute_cap_enforced_witness :
  let this := limiterOf (caps 2 10 10) in
  let calls := [(1000, "A"%string); (1200, "B"%string); (1500, "A"%string)] in
  admissions "A" this calls = 2%nat
  /\ allowed (checkLimit (after this calls) 1900 "A") = false.
Proof.
  intros this calls.
  assert (admissions "A" this calls = 2%nat) as Hadm by (vm_compute; reflexivity).
  split; [exact Hadm|].
  apply (proj1 minute_cap_enforced this "A"%string 2%nat calls 1900).
  - reflexivity.
  - intros t t' Ht Ht'.
    repeat (apply elem_of_cons in Ht as [->|Ht]); try (by apply elem_of_nil in Ht);
    repeat (apply elem_of_cons in Ht' as [->|Ht']); try (by apply elem_of_nil in Ht');
    reflexivity.
  - exact Hadm.
Defined.

(** ** Simultaneous calls *)

Lemma filter_true_replicate (n k : nat) :
  filter (λ b : bool, b = true) (replicate n true ++ replicate k false)
  = replicate n true.
Proof.
  induction n as [|n IH]; simpl.
  - induction k as [|k IH]; [done|]. simpl. by rewrite filter_cons_False.
  - by rewrite filter_cons_True, IH.
Qed.

Lemma filter_false_replicate (n k : nat) :
  filter (λ b : bool, b = false) (replicate n true ++ replicate k false)
  = replicate k false.
Proof.
  induction n as [|n IH]; simpl.
  - induction k as [|k IH]; [done|]. simpl. by rewrite filter_cons_True, IH.
  - by rewrite filter_cons_False.
Qed.

Lemma burst_counts (n k : nat) :
  length (filter (λ b : bool, b = true) (replicate n true ++ replicate k false)) = n
  /\ length (filter (λ b : bool, b = false) (replicate n true ++ replicate k false)) = k.
Proof.
  by rewrite filter_true_replicate, filter_false_replicate, !length_replicate.
Qed.

(** C9, as the code has it. [checkLimit] has no [await], so the pending
    calls are run one at a time, each to completion, in some order [sched].
    For a client without stored requests and [N] pending calls within one
    span shorter than a minute, every such order admits the calls it runs
    first until the smallest of the three caps is reached and rejects the
    others: exactly [min N (min m (min h d))] calls are admitted and the
    remaining ones rejected, which is the minute cap [m] only when no other
    cap is smaller.  From any prior state of the limiter, and with calls of
    other clients among the pending ones, the admissions of a client never
    exceed the minute cap. *)
Theorem simultaneous_calls_admitted_up_to_smallest_cap :
  (∀ this (clientId : string) (m h d : nat) (pending sched : list Call),
      config this = caps (Z.of_nat m) (Z.of_nat h) (Z.of_nat d) ->
      stored this clientId = [] ->
      Forall (λ call : Call, call.2 = clientId) pending ->
      withinOneMinute pending.*1 ->
      sched ≡ₚ pending ->
      decisions this sched
      = replicate (length pending `min` (m `min` (h `min` d))) true
        ++ replicate (length pending - m `min` (h `min` d)) false
      /\ length (filter (λ b : bool, b = true) (decisions this sched))
         = (length pending `min` (m `min` (h `min` d)))%nat
      /\ length (filter (λ b : bool, b = false) (decisions this sched))
         = (length pending - m `min` (h `min` d))%nat)
  /\ (∀ this (clientId : string) (m : nat) (pending sched : list Call),
        requestsPerMinute (config this) = ofZ (Z.of_nat m) ->
        withinOneMinute pending.*1 ->
        sched ≡ₚ pending ->
        (admissions clientId this sched <= m)%nat).
Proof.
  split.
  - intros this clientId m h d pending sched Hcfg Hfresh Hown Hspan Hperm.
    assert (decisions this sched
            = replicate (length pending `min` (m `min` (h `min` d))) true
              ++ replicate (length pending - m `min` (h `min` d)) false) as Hdec.
    { rewrite (burst_decisions clientId m h d sched this Hcfg).
      - rewrite Hfresh. simpl length. rewrite Nat.sub_0_r.
        by rewrite (Permutation_length Hperm).
      - by rewrite Hperm.
      - rewrite Hfresh. simpl. intros t t' Ht Ht'.
        rewrite Hperm in Ht, Ht'. by apply Hspan. }
    split; [exact Hdec|]. rewrite Hdec. apply burst_counts.
  - intros this clientId m pending sched Hcap Hspan Hperm.
    apply admissions_le_cap; [done|].
    intros t t' Ht Ht'. rewrite Hperm in Ht, Ht'. by apply Hspan.
Qed.

Lemma simultaneous_calls_admitted_up_to_smallest_cap_witness :
  decisions (limiterOf (caps 2 10 10))
    [(1002, "A"%string); (1000, "A"%string); (1003, "A"%string); (1001, "A"%string)]
  = [true; true; false; false].
Proof.
  refine (proj1 (proj1 simultaneous_calls_admitted_up_to_smallest_cap
    (limiterOf (caps 2 10 10)) "A"%string 2%nat 10%nat 10%nat
    [(1000, "A"%string); (1001, "A"%string); (1002, "A"%string); (1003, "A"%string)]
    [(1002, "A"%string); (1000, "A"%string); (1003, "A"%string); (1001, "A"%string)]
    _ _ _ _ _)).
  - reflexivity.
  - reflexivity.
  - repeat constructor.
  - intros t t' Ht Ht'.
    repeat (apply elem_of_cons in Ht as [->|Ht]); try (by apply elem_of_nil in Ht);
    repeat (apply elem_of_cons in Ht' as [->|Ht']); try (by apply elem_of_nil in Ht');
    reflexivity.
  - apply (Permutation_trans (l' := [(1000, "A"%string); (1002, "A"%string);
                                      (1003, "A"%string); (1001, "A"%string)])).
    + apply perm_swap.
    + apply perm_skip.
      apply (Permutation_trans (l' := [(1002, "A"%string); (1001, "A"%string);
                                        (1003, "A"%string)])).
      * apply perm_skip. apply perm_swap.
      * apply perm_swap.
Defined.

(** The claim C9 as the specification words it fails when another cap is
    smaller than the minute cap: under caps 5, 2, 10, six simultaneous calls
    of a client without stored requests exceed the minute cap of 5, and the
    third call already finds the hour window full; two calls are admitted,
    not five. *)
Lemma six_simultaneous_calls_two_admitted :
  let sched := replicate 6 (1000, "A"%string) in
  decisions (limiterOf (caps 5 2 10)) sched = [true; true; false; false; false; false]
  /\ length (filter (λ b : bool, b = true) (decisions (limiterOf (caps 5 2 10)) sched))
     = 2%nat
  /\ ¬ (∀ (m h d : nat) (clientId : string) (calls : list Call),
          Forall (λ call : Call, call.2 = clientId) calls ->
          withinOneMinute calls.*1 ->
          (m < length calls)%nat ->
          length (filter (λ b : bool, b = true)
                    (decisions (limiterOf (caps (Z.of_nat m) (Z.of_nat h) (Z.of_nat d)))
                       calls)) = m
          /\ length (filter (λ b : bool, b = false)
                       (decisions (limiterOf (caps (Z.of_nat m) (Z.of_nat h) (Z.of_nat d)))
                          calls)) = (length calls - m)%nat).
Proof.
  intros sched.
  assert (decisions (limiterOf (caps 5 2 10)) sched
          = [true; true; false; false; false; false]) as Hdec by (vm_compute; reflexivity).
  split; [exact Hdec|]. split; [by rewrite Hdec|].
  intros Hclaim.
  destruct (Hclaim 5%nat 2%nat 10%nat "A"%string sched) as [Htrue _].
  - unfold sched. simpl. repeat constructor.
  - intros t t' Ht Ht'. unfold sched in Ht, Ht'. simpl in Ht, Ht'.
    repeat (apply elem_of_cons in Ht as [->|Ht]); try (by apply elem_of_nil in Ht);
    repeat (apply elem_of_cons in Ht' as [->|Ht']); try (by apply elem_of_nil in Ht');
    reflexivity.
  - unfold sched. simpl. lia.
  - change (caps (Z.of_nat 5) (Z.of_nat 2) (Z.of_nat 10)) with (caps 5 2 10) in Htrue.
    rewrite Hdec in Htrue. discriminate Htrue.
Qed.

(** ** Edges of the windows *)

Lemma checkLimit_allowed this now clientId :
  allowed (checkLimit this now clientId)
  = negb (count_ge (lastMinute now (pruned now (stored this clientId)))
            (requestsPerMinute (config this)))
    && negb (count_ge (lastHour now (pruned now (stored this clientId)))
               (requestsPerHour (config this)))
    && negb (count_ge (lastDay (pruned now (stored this clientId)))
               (requestsPerDay (config this))).
Proof.
  unfold checkLimit.
  destruct (count_ge (lastMinute _ _) _), (count_ge (lastHour _ _) _),
    (count_ge (lastDay _) _); reflexivity.
Qed.

(** Evaluates the filters of a call on an explicit record whose ages are
    known up to linear arithmetic. *)
Ltac eval_windows :=
  unfold pruned, lastMinute, lastHour, lastDay;
  repeat first
    [ rewrite filter_cons_True by (unfold day, hour, minute; lia)
    | rewrite filter_cons_False by (unfold day, hour, minute; lia)
    | rewrite filter_nil ];
  reflexivity.

(** A first call at [ts] of an unseen client, then a call at [ts + younger]
    that is rejected, then a call at [ts + edge]. *)
Lemma edge_run (c : RateLimitConfig) (clientId : string) (ts younger edge : Z) :
  allowed (checkLimit (limiterOf c) ts clientId) = true ->
  allowed (checkLimit (mkLimiter {[clientId := [ts]]} c) (ts + younger) clientId) = false ->
  allowed (checkLimit (mkLimiter {[clientId := [ts]]} c) (ts + edge) clientId) = true ->
  decisions (limiterOf c) [(ts, clientId); (ts + younger, clientId); (ts + edge, clientId)]
  = [true; false; true].
Proof.
  intros H1 H2 H3.
  assert (limiter (checkLimit (limiterOf c) ts clientId) = mkLimiter {[clientId := [ts]]} c)
    as Hst.
  { rewrite (checkLimit_accepted _ _ _ H1). unfold stored, limiterOf. simpl.
    rewrite lookup_empty. simpl. by rewrite insert_empty. }
  rewrite decisions_cons, H1, Hst, decisions_cons, H2, (checkLimit_rejected _ _ _ H2).
  by rewrite decisions_cons, H3.
Qed.

Lemma stored_singleton (c : RateLimitConfig) (clientId : string) (l : list Z) :
  stored (mkLimiter {[clientId := l]} c) clientId = l.
Proof. unfold stored. simpl. by rewrite lookup_singleton_eq. Qed.

(** C10. The counts of a call are the numbers of stored timestamps whose age
    is strictly below 60 000 ms, 3 600 000 ms and 86 400 000 ms; a timestamp
    aged exactly the length of a window is not counted in it (and at exactly
    24 hours it is pruned), while one that is a millisecond younger is.  The
    decisions show it: under a cap of one for a window, a second call is
    rejected one millisecond before the first one leaves the window and
    admitted at the very edge. *)
Theorem window_membership_strict (now ts : Z) (timestamps : list Z) (clientId : string) :
  lastMinute now (pruned now timestamps)
  = length (filter (λ x, now - x < 60000) timestamps)
  /\ lastHour now (pruned now timestamps)
     = length (filter (λ x, now - x < 3600000) timestamps)
  /\ lastDay (pruned now timestamps)
     = length (filter (λ x, now - x < 86400000) timestamps)
  /\ lastMinute (ts + 60000) (pruned (ts + 60000) (ts :: timestamps))
     = lastMinute (ts + 60000) (pruned (ts + 60000) timestamps)
  /\ lastHour (ts + 3600000) (pruned (ts + 3600000) (ts :: timestamps))
     = lastHour (ts + 3600000) (pruned (ts + 3600000) timestamps)
  /\ pruned (ts + 86400000) (ts :: timestamps) = pruned (ts + 86400000) timestamps
  /\ lastMinute (ts + 59999) (pruned (ts + 59999) (ts :: timestamps))
     = S (lastMinute (ts + 59999) (pruned (ts + 59999) timestamps))
  /\ lastHour (ts + 3599999) (pruned (ts + 3599999) (ts :: timestamps))
     = S (lastHour (ts + 3599999) (pruned (ts + 3599999) timestamps))
  /\ lastDay (pruned (ts + 86399999) (ts :: timestamps))
     = S (lastDay (pruned (ts + 86399999) timestamps))
  /\ decisions (limiterOf (caps 1 10 10))
       [(ts, clientId); (ts + 59999, clientId); (ts + 60000, clientId)]
     = [true; false; true]
  /\ decisions (limiterOf (caps 10 1 10))
       [(ts, clientId); (ts + 3599999, clientId); (ts + 3600000, clientId)]
     = [true; false; true]
  /\ decisions (limiterOf (caps 10 10 1))
       [(ts, clientId); (ts + 86399999, clientId); (ts + 86400000, clientId)]
     = [true; false; true].
Proof.
  split; [by rewrite lastMinute_pruned|].
  split; [by rewrite lastHour_pruned|].
  split; [reflexivity|].
  split; [rewrite !lastMinute_pruned; unfold lastMinute;
          rewrite filter_cons_False by (unfold minute; lia); done|].
  split; [rewrite !lastHour_pruned; unfold lastHour;
          rewrite filter_cons_False by (unfold hour, minute; lia); done|].
  split; [unfold pruned; rewrite filter_cons_False by (unfold day, hour, minute; lia); done|].
  split; [rewrite !lastMinute_pruned; unfold lastMinute;
          rewrite filter_cons_True by (unfold minute; lia); done|].
  split; [rewrite !lastHour_pruned; unfold lastHour;
          rewrite filter_cons_True by (unfold hour, minute; lia); done|].
  split; [unfold pruned, lastDay;
          rewrite filter_cons_True by (unfold day, hour, minute; lia); done|].
  split; [|split].
  all: apply edge_run;
    [by rewrite checkLimit_unseen
    |rewrite checkLimit_allowed, stored_singleton; eval_windows
    |rewrite checkLimit_allowed, stored_singleton; eval_windows].
Qed.

(** ** Construction *)

Lemma nonPositive_rejects this now clientId :
  nonPositive (requestsPerMinute (config this))
  || nonPositive (requestsPerHour (config this))
  || nonPositive (requestsPerDay (config this)) = true ->
  allowed (checkLimit this now clientId) = false.
Proof.
  intros H. rewrite checkLimit_allowed.
  apply orb_true_iff in H as [H|H]; [apply orb_true_iff in H as [H|H]|].
  all: rewrite (count_ge_nonPositive _ _ H); simpl; by rewrite ?andb_false_r.
Qed.

Lemma always_rejecting calls : ∀ this,
  (∀ now clientId, allowed (checkLimit this now clientId) = false) ->
  decisions this calls = replicate (length calls) false.
Proof.
  induction calls as [|[t c] calls IH]; intros this Hrej; [done|].
  rewrite decisions_cons, Hrej, (checkLimit_rejected _ _ _ (Hrej t c)). simpl.
  by rewrite IH.
Qed.

(** C6, as the code has it. The constructor has no validation and never
    signals an error: it completes normally on every argument, stores each
    supplied cap as given (a cap that is not supplied takes its default), and
    starts with no record.  A limiter built with a non-positive cap rejects
    every call. *)
Theorem constructor_never_rejects (cfg : option PartialConfig) :
  ∃ rl, constructor cfg = Normal rl
        /\ requests rl = ∅
        /\ requestsPerMinute (config rl) = nullish (optField cfg optRequestsPerMinute) (ofZ 60)
        /\ requestsPerHour (config rl) = nullish (optField cfg optRequestsPerHour) (ofZ 1000)
        /\ requestsPerDay (config rl) = nullish (optField cfg optRequestsPerDay) (ofZ 5000)
        /\ (invalidConfig cfg = true ->
            ∀ calls, decisions rl calls = replicate (length calls) false).
Proof.
  eexists. split; [reflexivity|]. repeat split.
  intros Hinv calls. apply always_rejecting. intros now clientId.
  apply nonPositive_rejects. simpl.
  unfold invalidConfig, suppliesNonPositive in Hinv.
  destruct (optField cfg optRequestsPerMinute) as [x|],
    (optField cfg optRequestsPerHour) as [y|],
    (optField cfg optRequestsPerDay) as [z|]; simpl in *;
    rewrite ?orb_false_r in *; try done.
  all: repeat (apply orb_true_iff in Hinv as [Hinv|Hinv]);
    rewrite ?Hinv, ?orb_true_r; try done.
Qed.

Lemma constructor_never_rejects_witness :
  ∃ rl, constructor (Some (overrides 0 10 10)) = Normal rl
        /\ requestsPerMinute (config rl) = ofZ 0
        /\ decisions rl [(1000, "A"%string); (1001, "B"%string)] = [false; false].
Proof.
  destruct (constructor_never_rejects (Some (overrides 0 10 10)))
    as (rl & Hrl & _ & Hm & _ & _ & Hrej).
  exists rl. split; [exact Hrl|]. split; [exact Hm|].
  apply (Hrej eq_refl [(1000, "A"%string); (1001, "B"%string)]).
Defined.

(** The claim C6 as the specification words it fails: a cap of zero is
    invalid, and the constructor completes normally with that cap. *)
Lemma constructor_accepts_zero_cap :
  invalidConfig (Some (overrides 0 10 10)) = true
  /\ constructor (Some (overrides 0 10 10)) = Normal (limiterOf (caps 0 10 10))
  /\ ¬ (∀ cfg, invalidConfig cfg = true -> ∃ err, constructor cfg = Throw err).
Proof.
  split; [reflexivity|]. split; [reflexivity|].
  intros Hclaim. destruct (Hclaim (Some (overrides 0 10 10)) eq_refl) as [err Herr].
  discriminate Herr.
Qed.

(** ** Default caps *)

Section Defaults.

Variable StringToNumber : string -> number.

Lemma or_else_NaN (d : number) : or_else NaN d = d.
Proof. reflexivity. Qed.

Lemma or_else_unset (v : option string) (d : number) :
  unsetOrNonNumeric StringToNumber v -> or_else (Number StringToNumber v) d = d.
Proof.
  destruct v as [s|]; simpl; [intros ->|intros _]; apply or_else_NaN.
Qed.

Lemma or_else_truthy (x d : number) : truthy d = true -> truthy (or_else x d) = true.
Proof. intros Hd. unfold or_else. by destruct (truthy x) eqn:Hx. Qed.

(** C8. A limiter built without overrides has the caps 60, 1000 and 5000.
    The limiter of the chat proxy takes each cap from its environment
    variable through [Number(...) || default]: a variable that is unset or
    not numeric yields the default of that cap (15, 250, 500), whatever the
    other variables hold, so with no usable override the caps are 15, 250
    and 500; and for every environment no cap is [NaN] or zero. *)
Theorem default_caps :
  constructor None = Normal (limiterOf (caps 60 1000 5000))
  /\ constructor (Some (mkPartial None None None)) = Normal (limiterOf (caps 60 1000 5000))
  /\ (∀ env : gmap string string,
        unsetOrNonNumeric StringToNumber (env !! "RATE_LIMIT_REQUESTS_PER_MINUTE"%string) ->
        unsetOrNonNumeric StringToNumber (env !! "RATE_LIMIT_REQUESTS_PER_HOUR"%string) ->
        unsetOrNonNumeric StringToNumber (env !! "RATE_LIMIT_REQUESTS_PER_DAY"%string) ->
        rateLimiter StringToNumber env = Normal (limiterOf (caps 15 250 500)))
  /\ (∀ env : gmap string string,
        ∃ rl, rateLimiter StringToNumber env = Normal rl
          /\ (unsetOrNonNumeric StringToNumber (env !! "RATE_LIMIT_REQUESTS_PER_MINUTE"%string) ->
              requestsPerMinute (config rl) = ofZ 15
              /\ finitePositive (requestsPerMinute (config rl)) = true)
          /\ (unsetOrNonNumeric StringToNumber (env !! "RATE_LIMIT_REQUESTS_PER_HOUR"%string) ->
              requestsPerHour (config rl) = ofZ 250
              /\ finitePositive (requestsPerHour (config rl)) = true)
          /\ (unsetOrNonNumeric StringToNumber (env !! "RATE_LIMIT_REQUESTS_PER_DAY"%string) ->
              requestsPerDay (config rl) = ofZ 500
              /\ finitePositive (requestsPerDay (config rl)) = true)
          /\ truthy (requestsPerMinute (config rl)) = true
          /\ truthy (requestsPerHour (config rl)) = true
          /\ truthy (requestsPerDay (config rl)) = true).
Proof.
  split; [reflexivity|]. split; [reflexivity|]. split.
  - intros env Hm Hh Hd. unfold rateLimiter, chatConfig, constructor. simpl.
    by rewrite !or_else_unset.
  - intros env. eexists. split; [reflexivity|]. simpl.
    split; [intros H; by rewrite or_else_unset|].
    split; [intros H; by rewrite or_else_unset|].
    split; [intros H; by rewrite or_else_unset|].
    repeat split; by apply or_else_truthy.
Qed.

End Defaults.

Lemma default_caps_witness :
  rateLimiter decimalStringToNumber
    {[ "RATE_LIMIT_REQUESTS_PER_MINUTE"%string := "abc"%string;
       "RATE_LIMIT_REQUESTS_PER_HOUR"%string := "1e"%string ]}
  = Normal (limiterOf (caps 15 250 500)).
Proof.
  apply (proj1 (proj2 (proj2 (default_caps decimalStringToNumber)))).
  - vm_compute. reflexivity.
  - vm_compute. reflexivity.
  - vm_compute. exact I.
Defined.

Example chat_overrides :
  rateLimiter decimalStringToNumber
    {[ "RATE_LIMIT_REQUESTS_PER_MINUTE"%string := "30"%string;
       "RATE_LIMIT_REQUESTS_PER_HOUR"%string := "0"%string;
       "RATE_LIMIT_REQUESTS_PER_DAY"%string := "Infinity"%string ]}
  = Normal (limiterOf (mkConfig (ofZ 30) (ofZ 250) PosInfinity)).
Proof. vm_compute. reflexivity. Qed.

(** * Further properties of [checkLimit] *)

(** ** Every window bounds the admissions of a span *)

Lemma length_filter_impl {A} (P Q : A → Prop)
    `{!∀ x, Decision (P x), !∀ x, Decision (Q x)} (l : list A) :
  (∀ x, x ∈ l → P x → Q x) → (length (filter P l) <= length (filter Q l))%nat.
Proof.
  induction l as [|x l IH]; intros Himp; [done|].
  assert (length (filter P l) <= length (filter Q l))%nat as IH'.
  { apply IH. intros y Hy. apply Himp. by apply elem_of_cons; right. }
  rewrite !filter_cons.
  destruct (decide (P x)) as [HP|HP].
  - rewrite decide_True by (apply Himp; [by apply elem_of_cons; left|done]).
    simpl. lia.
  - destruct (decide (Q x)); simpl; lia.
Qed.

Lemma windowLength_le_day w : windowLength w <= day.
Proof. destruct w; unfold day, hour, minute; simpl; lia. Qed.

Lemma withinSpan_sub w ts ts' : ts' ⊆ ts → withinSpan w ts → withinSpan w ts'.
Proof. intros Hsub H t t' Ht Ht'. apply H; by apply Hsub. Qed.

(** A call made at an instant of the span [S] prunes no timestamp of [S] and
    adds its own instant when it is admitted. *)
Lemma inSpan_after_call (S : list Z) this t caller clientId :
  t ∈ S → withinSpan day S →
  length (filter (λ ts, ts ∈ S) (stored (limiter (checkLimit this t caller)) clientId))
  = (length (filter (λ ts, ts ∈ S) (stored this clientId))
     + (if decide ((caller, allowed (checkLimit this t caller)) = (clientId, true))
        then 1 else 0))%nat.
Proof.
  intros Ht Hspan. case_decide as Hadm.
  - injection Hadm as -> Ha. rewrite stored_accepted by done.
    rewrite filter_app, length_app. f_equal.
    + f_equal. unfold pruned. apply list_filter_filter_l.
      intros ts Hts. by apply Hspan.
    + by rewrite filter_cons_True.
  - destruct (decide (caller = clientId)) as [->|Hne].
    + destruct (allowed (checkLimit this t clientId)) eqn:Ha; [done|].
      rewrite (checkLimit_rejected _ _ _ Ha). lia.
    + rewrite stored_other by done. lia.
Qed.

Lemma inSpan_after_run (S : list Z) clientId calls : ∀ this,
  Forall (λ t, t ∈ S) calls.*1 → withinSpan day S →
  length (filter (λ ts, ts ∈ S) (stored (after this calls) clientId))
  = (length (filter (λ ts, ts ∈ S) (stored this clientId))
     + admissions clientId this calls)%nat.
Proof.
  induction calls as [|[t caller] calls IH]; intros this Hin Hspan.
  - unfold after. simpl. rewrite admissions_nil. lia.
  - rewrite fmap_cons in Hin. apply Forall_cons in Hin as [Ht Hin].
    rewrite after_cons, admissions_cons, IH by done.
    rewrite inSpan_after_call by done. lia.
Qed.

(** An admitted call found the count of every window below its cap. *)
Lemma accepted_window_room this t clientId w (C : nat) :
  allowed (checkLimit this t clientId) = true →
  capOf w (config this) = ofZ (Z.of_nat C) →
  (windowCount w t (stored this clientId) < C)%nat.
Proof.
  intros (Hm & Hh & Hd)%checkLimit_accepted_iff Hcap.
  destruct w; simpl in Hcap; rewrite Hcap in *.
  - rewrite windowCount_Minute. apply count_ge_ofZ_false in Hm. lia.
  - rewrite windowCount_Hour. apply count_ge_ofZ_false in Hh. lia.
  - rewrite windowCount_Day. apply count_ge_ofZ_false in Hd. lia.
Qed.

Lemma inSpan_le_windowCount (S : list Z) w t timestamps :
  t ∈ S → withinSpan (windowLength w) S →
  (length (filter (λ ts, ts ∈ S) timestamps) <= windowCount w t timestamps)%nat.
Proof.
  intros Ht Hspan. unfold windowCount. rewrite list_filter_filter.
  apply length_filter_impl. intros ts _ Hts.
  pose proof (Hspan ts t Hts Ht) as Hnear.
  pose proof (windowLength_le_day w) as Hle.
  unfold day, hour, minute in Hle. simpl. lia.
Qed.

Lemma admissions_le_window_cap (S : list Z) clientId w (C : nat) calls : ∀ this,
  capOf w (config this) = ofZ (Z.of_nat C) →
  Forall (λ t, t ∈ S) calls.*1 →
  withinSpan (windowLength w) S →
  (admissions clientId this calls <= C)%nat.
Proof.
  induction calls as [|[t caller] calls IH] using rev_ind; intros this Hcap Hin Hspan.
  - rewrite admissions_nil. lia.
  - rewrite fmap_app in Hin. apply Forall_app in Hin as [Hin Hlast].
    apply Forall_cons in Hlast as [Ht _]. simpl in Ht.
    rewrite admissions_app, admissions_cons, admissions_nil.
    specialize (IH this Hcap Hin Hspan).
    case_decide as Hadm; [|lia].
    injection Hadm as -> Ha.
    apply (accepted_window_room _ _ _ w C) in Ha; [|by rewrite after_config].
    pose proof (inSpan_le_windowCount S w t (stored (after this calls) clientId) Ht Hspan)
      as Hle.
    assert (withinSpan day S) as Hday.
    { intros x y Hx Hy. pose proof (Hspan x y Hx Hy). pose proof (windowLength_le_day w). lia. }
    rewrite (inSpan_after_run S clientId calls this Hin Hday) in Hle. lia.
Qed.

(** X1. For each of the three windows, with a cap [C] on it: among calls
    whose instants are pairwise less than the window length apart, a client
    is admitted at most [C] times, whatever the limiter already held and in
    whatever order the clock readings come. *)
Theorem window_cap_in_span this (clientId : string) (w : Window) (C : nat)
    (calls : list Call) :
  capOf w (config this) = ofZ (Z.of_nat C) →
  withinSpan (windowLength w) calls.*1 →
  (admissions clientId this calls <= C)%nat.
Proof.
  intros Hcap Hspan.
  apply (admissions_le_window_cap calls.*1 clientId w C calls this Hcap); [|done].
  by apply Forall_forall.
Qed.

Lemma window_cap_in_span_witness :
  let this := limiterOf (caps 10 2 10) in
  let calls := [(0, "A"%string); (1800000, "A"%string); (3599999, "A"%string)] in
  decisions this calls = [true; true; false]
  /\ (admissions "A" this calls <= 2)%nat.
Proof.
  intros this calls. split; [vm_compute; reflexivity|].
  apply (window_cap_in_span this "A"%string Hour 2 calls).
  - reflexivity.
  - intros t t' Ht Ht'.
    repeat (apply elem_of_cons in Ht as [->|Ht]); try (by apply elem_of_nil in Ht);
    repeat (apply elem_of_cons in Ht' as [->|Ht']); try (by apply elem_of_nil in Ht');
    reflexivity.
Defined.

(** ** Size of a record *)

Lemma record_length_step this t caller clientId (C : nat) :
  requestsPerDay (config this) = ofZ (Z.of_nat C) →
  (length (stored this clientId) <= C)%nat →
  (length (stored (limiter (checkLimit this t caller)) clientId) <= C)%nat.
Proof.
  intros Hcap Hlen.
  destruct (allowed (checkLimit this t caller)) eqn:Ha.
  - destruct (decide (caller = clientId)) as [->|Hne].
    + rewrite stored_accepted, length_app by done. simpl.
      apply checkLimit_accepted_iff in Ha as (_ & _ & Hd).
      rewrite Hcap in Hd. apply count_ge_ofZ_false in Hd. unfold lastDay in Hd. lia.
    + by rewrite stored_other.
  - by rewrite (checkLimit_rejected _ _ _ Ha).
Qed.

(** X2. With a cap [C] on the day window, the record stored for a client
    never holds more than [C] timestamps: a record within that size stays
    within it through every run of calls. *)
Theorem record_within_day_cap this (clientId : string) (C : nat) (calls : list Call) :
  requestsPerDay (config this) = ofZ (Z.of_nat C) →
  (length (stored this clientId) <= C)%nat →
  (length (stored (after this calls) clientId) <= C)%nat.
Proof.
  revert this. induction calls as [|[t caller] calls IH]; intros this Hcap Hlen; [done|].
  rewrite after_cons. apply IH; [by rewrite checkLimit_config|].
  by apply record_length_step.
Qed.

Lemma record_within_day_cap_witness :
  let this := limiterOf (caps 60 1000 2) in
  let calls := [(0, "A"%string); (70000, "A"%string); (140000, "A"%string);
                (86400000, "A"%string); (86400001, "A"%string)] in
  decisions this calls = [true; true; false; true; false]
  /\ (length (stored (after this calls) "A") <= 2)%nat.
Proof.
  intros this calls. split; [vm_compute; reflexivity|].
  apply (record_within_day_cap this "A"%string 2 calls).
  - reflexivity.
  - replace (stored this "A") with (@nil Z) by (vm_compute; reflexivity).
    simpl. lia.
Defined.

(** ** What a record holds *)

Lemma admittedInstants_cons clientId this t caller rest :
  admittedInstants clientId this ((t, caller) :: rest)
  = (if bool_decide (caller = clientId) && allowed (checkLimit this t caller)
     then [t] else [])
    ++ admittedInstants clientId (limiter (checkLimit this t caller)) rest.
Proof. reflexivity. Qed.

Lemma admittedInstants_sublist clientId calls : ∀ this,
  admittedInstants clientId this calls `sublist_of` calls.*1.
Proof.
  induction calls as [|[t caller] calls IH]; intros this; [done|].
  rewrite admittedInstants_cons, fmap_cons. simpl.
  destruct (bool_decide (caller = clientId) && allowed (checkLimit this t caller)); simpl.
  - by apply sublist_skip.
  - by apply sublist_cons.
Qed.

(** A call changes the record of [clientId] exactly when it is a call of
    [clientId] that is admitted. *)
Lemma stored_after_call this t caller clientId :
  stored (limiter (checkLimit this t caller)) clientId
  = if bool_decide (caller = clientId) && allowed (checkLimit this t caller)
    then pruned t (stored this clientId) ++ [t]
    else stored this clientId.
Proof.
  case_bool_decide as Hc; simpl.
  - subst caller. destruct (allowed (checkLimit this t clientId)) eqn:Ha.
    + by rewrite stored_accepted.
    + by rewrite (checkLimit_rejected _ _ _ Ha).
  - by apply stored_other.
Qed.

Lemma StronglySorted_sublist {A} (R : relation A) (l1 l2 : list A) :
  l1 `sublist_of` l2 → StronglySorted R l2 → StronglySorted R l1.
Proof.
  induction 1 as [|x l1 l2 Hsub IH|x l1 l2 Hsub IH]; intros Hsorted; [done| |].
  - apply StronglySorted_cons in Hsorted as [Hx Hsorted].
    apply StronglySorted_cons. split; [|by apply IH].
    apply Forall_forall. intros y Hy. rewrite Forall_forall in Hx.
    apply Hx. by eapply elem_of_sublist.
  - apply StronglySorted_cons in Hsorted as [_ Hsorted]. by apply IH.
Qed.

Lemma pruned_app now l l' : pruned now (l ++ l') = pruned now l ++ pruned now l'.
Proof. apply filter_app. Qed.

Lemma pruned_later t t' timestamps :
  t <= t' → pruned t' (pruned t timestamps) = pruned t' timestamps.
Proof.
  intros Hle. unfold pruned. apply list_filter_filter_l. intros ts. lia.
Qed.

Lemma stored_sorted_run clientId calls : ∀ this,
  StronglySorted Z.le calls.*1 →
  stored (after this calls) clientId
  = match last (admittedInstants clientId this calls) with
    | Some t => pruned t (stored this clientId ++ admittedInstants clientId this calls)
    | None => stored this clientId
    end.
Proof.
  induction calls as [|[t caller] calls IH]; intros this Hsorted; [done|].
  rewrite fmap_cons in Hsorted. apply StronglySorted_cons in Hsorted as [Hfirst Hsorted].
  simpl in Hfirst.
  rewrite after_cons, admittedInstants_cons, (IH _ Hsorted), stored_after_call.
  set (A := admittedInstants clientId (limiter (checkLimit this t caller)) calls).
  destruct (bool_decide (caller = clientId) && allowed (checkLimit this t caller)); simpl.
  - rewrite last_cons. destruct (last A) as [t'|] eqn:Hlast.
    + assert (t <= t') as Hle.
      { rewrite Forall_forall in Hfirst. apply Hfirst.
        eapply elem_of_sublist; [|apply admittedInstants_sublist].
        by apply last_Some_elem_of. }
      rewrite <- !app_assoc. simpl.
      rewrite !(pruned_app t'), pruned_later by done. done.
    + apply last_None in Hlast. rewrite Hlast, pruned_app. f_equal.
      unfold pruned. rewrite filter_cons_True by (unfold day, hour, minute; lia). done.
  - done.
Qed.

(** X3. When the clock readings of a run never decrease, the record of a
    client after the run is read off its admitted calls: the limiter being
    new, it holds exactly the instants of the admitted calls of that client
    that are less than 24 hours older than its last admitted call, in the
    order of the calls (nothing when no call was admitted); it is sorted. *)
Theorem record_of_monotone_run (c : RateLimitConfig) (clientId : string)
    (calls : list Call) :
  StronglySorted Z.le calls.*1 →
  stored (after (limiterOf c) calls) clientId
  = match last (admittedInstants clientId (limiterOf c) calls) with
    | Some t => pruned t (admittedInstants clientId (limiterOf c) calls)
    | None => []
    end
  /\ StronglySorted Z.le (stored (after (limiterOf c) calls) clientId).
Proof.
  intros Hsorted.
  assert (stored (limiterOf c) clientId = []) as Hfresh.
  { unfold stored, limiterOf. simpl. by rewrite lookup_empty. }
  assert (stored (after (limiterOf c) calls) clientId
          = match last (admittedInstants clientId (limiterOf c) calls) with
            | Some t => pruned t (admittedInstants clientId (limiterOf c) calls)
            | None => []
            end) as Heq.
  { rewrite stored_sorted_run by done. by rewrite Hfresh. }
  split; [exact Heq|]. rewrite Heq.
  destruct (last _); [|constructor].
  eapply StronglySorted_sublist; [|exact Hsorted].
  etrans; [apply sublist_filter|apply admittedInstants_sublist].
Qed.

Lemma record_of_monotone_run_witness :
  let calls := [(0, "A"%string); (10, "B"%string); (70000, "A"%string);
                (86400000, "A"%string); (86400001, "A"%string)] in
  stored (after (limiterOf (caps 1 10 10)) calls) "A" = [70000; 86400000].
Proof.
  intros calls.
  assert (StronglySorted Z.le calls.*1) as Hsorted.
  { repeat (apply StronglySorted_cons; split; [repeat constructor; done|]). constructor. }
  rewrite (proj1 (record_of_monotone_run (caps 1 10 10) "A"%string calls Hsorted)).
  vm_compute. reflexivity.
Defined.

Lemma stored_provenance clientId calls : ∀ this ts,
  ts ∈ stored (after this calls) clientId →
  ts ∈ stored this clientId ∨ ts ∈ admittedInstants clientId this calls.
Proof.
  induction calls as [|[t caller] calls IH]; intros this ts Hts; [by left|].
  rewrite after_cons in Hts. apply IH in Hts as [Hts|Hts].
  - rewrite stored_after_call in Hts. rewrite admittedInstants_cons.
    destruct (bool_decide (caller = clientId) && allowed (checkLimit this t caller)).
    + apply elem_of_app in Hts as [Hts|Hts].
      * left. unfold pruned in Hts. by apply list_elem_of_filter in Hts as [_ ?].
      * right. apply elem_of_app. by left.
    + by left.
  - right. rewrite admittedInstants_cons. apply elem_of_app. by right.
Qed.

(** X4. Whatever the clock does, a timestamp found in the record of a client
    after a run was in that record before the run or is the instant of a call
    of that very client that the run admitted: the instant of a rejected call,
    or of a call of another client, is never stored under it. *)
Theorem record_holds_only_admitted_instants this (clientId : string)
    (calls : list Call) (ts : Z) :
  ts ∈ stored (after this calls) clientId →
  ts ∈ stored this clientId ∨ ts ∈ admittedInstants clientId this calls.
Proof. apply stored_provenance. Qed.

Lemma record_holds_only_admitted_instants_witness :
  let this := limiterOf (caps 1 10 10) in
  let calls := [(5, "A"%string); (3, "A"%string); (9, "B"%string)] in
  stored (after this calls) "A" = [5]
  /\ (5 ∈ stored this "A" ∨ 5 ∈ admittedInstants "A" this calls).
Proof.
  intros this calls.
  assert (stored (after this calls) "A" = [5]) as Hst by (vm_compute; reflexivity).
  split; [exact Hst|].
  apply (record_holds_only_admitted_instants this "A"%string calls 5).
  rewrite Hst. apply elem_of_cons. by left.
Defined.

(** ** Keys of the store *)

Lemma key_after_call this t caller clientId :
  is_Some (requests (limiter (checkLimit this t caller)) !! clientId)
  ↔ is_Some (requests this !! clientId)
    ∨ (caller = clientId ∧ allowed (checkLimit this t caller) = true).
Proof.
  destruct (allowed (checkLimit this t caller)) eqn:Ha.
  - rewrite (checkLimit_accepted _ _ _ Ha). simpl.
    destruct (decide (caller = clientId)) as [->|Hne].
    + rewrite lookup_insert_eq. split; [by right|by eexists].
    + rewrite lookup_insert_ne by done. tauto.
  - rewrite (checkLimit_rejected _ _ _ Ha). intuition congruence.
Qed.

Lemma key_after_run clientId calls : ∀ this,
  is_Some (requests (after this calls) !! clientId)
  ↔ is_Some (requests this !! clientId) ∨ admittedInstants clientId this calls ≠ [].
Proof.
  induction calls as [|[t caller] calls IH]; intros this.
  - unfold after. simpl. intuition congruence.
  - rewrite after_cons, IH, key_after_call, admittedInstants_cons.
    destruct (decide (caller = clientId)) as [->|Hne].
    + rewrite bool_decide_eq_true_2 by done. simpl.
      destruct (allowed (checkLimit this t clientId)); simpl; intuition congruence.
    + rewrite bool_decide_eq_false_2 by done. simpl. tauto.
Qed.

(** X5. The store never loses a key and gains one only by admitting: after a
    run, a client has an entry exactly when it had one before or one of its
    calls was admitted.  A client that was only ever rejected has no entry. *)
Theorem keys_kept_and_created_by_admission this (clientId : string) (calls : list Call) :
  (is_Some (requests (after this calls) !! clientId)
   ↔ is_Some (requests this !! clientId) ∨ admittedInstants clientId this calls ≠ [])
  /\ (is_Some (requests this !! clientId) →
      is_Some (requests (after this calls) !! clientId)).
Proof.
  split; [apply key_after_run|]. intros H. apply key_after_run. by left.
Qed.

Lemma keys_kept_and_created_by_admission_witness :
  let this := limiterOf (caps 1 0 10) in
  let calls := [(5, "A"%string); (6, "A"%string)] in
  requests (after this calls) !! "A"%string = None
  /\ let this' := after (limiterOf (caps 1 10 10)) [(5, "A"%string)] in
     is_Some (requests (after this' [(6, "A"%string); (7, "B"%string)]) !! "A"%string).
Proof.
  intros this calls. split; [vm_compute; reflexivity|].
  intros this'.
  apply (proj2 (keys_kept_and_created_by_admission this' "A"%string
                  [(6, "A"%string); (7, "B"%string)])).
  vm_compute. by eexists.
Defined.

(** ** Clients without recent requests *)

Lemma count_ge_zero (cap : number) : count_ge 0 cap = nonPositive cap.
Proof. by destruct cap. Qed.

(** X6. A client whose stored timestamps are all 24 hours old or older (or
    that has none) is admitted exactly when no cap is non-positive, and its
    record then becomes the instant of the call alone. *)
Theorem idle_client_admitted this (now : Z) (clientId : string) :
  Forall (λ ts, day <= now - ts) (stored this clientId) →
  allowed (checkLimit this now clientId)
  = negb (nonPositive (requestsPerMinute (config this))
          || nonPositive (requestsPerHour (config this))
          || nonPositive (requestsPerDay (config this)))
  /\ (allowed (checkLimit this now clientId) = true →
      stored (limiter (checkLimit this now clientId)) clientId = [now]).
Proof.
  intros Hold. pose proof (pruned_none _ _ Hold) as Hempty. split.
  - rewrite checkLimit_allowed, Hempty.
    change (lastMinute now []) with 0%nat. change (lastHour now []) with 0%nat.
    change (lastDay []) with 0%nat.
    rewrite (count_ge_zero (requestsPerMinute (config this))),
      (count_ge_zero (requestsPerHour (config this))),
      (count_ge_zero (requestsPerDay (config this))).
    by destruct (nonPositive (requestsPerMinute (config this))),
      (nonPositive (requestsPerHour (config this))),
      (nonPositive (requestsPerDay (config this))).
  - intros Ha. by rewrite stored_accepted, Hempty.
Qed.

Lemma idle_client_admitted_witness :
  let this := after (limiterOf (caps 1 1 1)) [(0, "A"%string)] in
  stored this "A" = [0]
  /\ allowed (checkLimit this 86400000 "A") = true.
Proof.
  intros this. split; [vm_compute; reflexivity|].
  assert (Forall (λ ts, day <= 86400000 - ts) (stored this "A")) as Hold.
  { replace (stored this "A") with [0] by (vm_compute; reflexivity).
    apply Forall_cons. split; [|constructor]. unfold day, hour, minute. lia. }
  rewrite (proj1 (idle_client_admitted this 86400000 "A"%string Hold)).
  vm_compute. reflexivity.
Defined.

(** ** Caps that are no numbers *)

Lemma count_ge_neverReached (n : nat) (cap : number) :
  neverReached cap = true → count_ge n cap = false.
Proof. by destruct cap. Qed.

Lemma always_admitting calls : ∀ this,
  neverReached (requestsPerMinute (config this)) = true →
  neverReached (requestsPerHour (config this)) = true →
  neverReached (requestsPerDay (config this)) = true →
  decisions this calls = replicate (length calls) true.
Proof.
  induction calls as [|[t c] calls IH]; intros this Hm Hh Hd; [done|].
  rewrite decisions_cons, checkLimit_allowed, !count_ge_neverReached by done.
  simpl. f_equal. apply IH; by rewrite checkLimit_config.
Qed.

(** X7. [??] only replaces a cap that is absent: a limiter constructed with
    [NaN] or [Infinity] for its three caps keeps them, and then admits every
    call of every run, since a count is never [>=] such a cap. *)
Theorem non_number_caps_admit_everything (m h d : number) (calls : list Call) :
  neverReached m = true → neverReached h = true → neverReached d = true →
  ∃ rl, constructor (Some (mkPartial (Some m) (Some h) (Some d))) = Normal rl
        /\ config rl = mkConfig m h d
        /\ decisions rl calls = replicate (length calls) true.
Proof.
  intros Hm Hh Hd. eexists. split; [reflexivity|]. split; [reflexivity|].
  by apply always_admitting.
Qed.

Lemma non_number_caps_admit_everything_witness :
  ∃ rl, constructor (Some (mkPartial (Some NaN) (Some PosInfinity) (Some NaN))) = Normal rl
        /\ decisions rl [(0, "A"%string); (0, "A"%string); (1, "A"%string)]
           = [true; true; true].
Proof.
  destruct (non_number_caps_admit_everything NaN PosInfinity NaN
              [(0, "A"%string); (0, "A"%string); (1, "A"%string)]
              eq_refl eq_refl eq_refl) as (rl & Hrl & _ & Hdec).
  exists rl. split; [exact Hrl|exact Hdec].
Defined.

(** ** Overrides below zero *)

Section NegativeOverrides.

Variable StringToNumber : string -> number.



End NegativeOverrides.


(** * Properties of the request handler *)

Lemma handler_limiterAfter env this now xff reading net :
  limiterAfter (handler env this now xff reading net)
  = limiter (checkLimit this now (clientIpOf xff)).
Proof.
  unfold handler.
  destruct (allowed (checkLimit this now (clientIpOf xff))); simpl; [|done].
  destruct reading as [e|m]; [done|].
  destruct net as [e|r]; [done|]. by destruct (ok r).
Qed.

Lemma handler_status env this now xff reading net :
  status (response (handler env this now xff reading net))
  = if allowed (checkLimit this now (clientIpOf xff)) then
      match reading, net with
      | BodyMessages _, FetchResponds r => if ok r then 200 else 500
      | _, _ => 500
      end
    else 429.
Proof.
  unfold handler.
  destruct (allowed (checkLimit this now (clientIpOf xff))); simpl; [|done].
  destruct reading as [e|m]; [done|].
  destruct net as [e|r]; [done|]. by destruct (ok r).
Qed.

Lemma handler_429 env this now xff reading net :
  status (response (handler env this now xff reading net)) = 429
  ↔ allowed (checkLimit this now (clientIpOf xff)) = false.
Proof.
  rewrite handler_status.
  destruct (allowed (checkLimit this now (clientIpOf xff))); [|done].
  destruct reading as [e|m]; [done|].
  destruct net as [e|r]; [done|]. by destruct (ok r).
Qed.

(** X9. A request whose client is over a limit is answered with the fixed
    429 response (JSON content type, error "Rate limit exceeded") whatever
    its body holds; the body is not read, no upstream request is made, and
    the limiter is left as it was. *)
Theorem rejected_request_stops_at_the_limiter (env : gmap string string) this
    (now : Z) (xff : option string) (reading : BodyOutcome) (net : FetchOutcome) :
  allowed (checkLimit this now (clientIpOf xff)) = false →
  handler env this now xff reading net
  = {| response :=
         {| status := 429;
            headers := [("Content-Type", "application/json")];
            body := JsonObject [("error", "Rate limit exceeded")] |};
       fetched := [];
       limiterAfter := this |}.
Proof.
  intros Hrej. unfold handler. rewrite Hrej. simpl.
  by rewrite (checkLimit_rejected _ _ _ Hrej).
Qed.

Lemma rejected_request_stops_at_the_limiter_witness :
  let this := after (limiterOf (caps 1 10 10)) [(0, "10.0.0.1"%string)] in
  handler ∅ this 5 (Some "10.0.0.1"%string) (BodyMessages "[]")
    (FetchResponds (mkUpstreamResponse 200 "OK" "data" (inr "{}"%string)))
  = {| response := rateLimited; fetched := []; limiterAfter := this |}.
Proof.
  intros this.
  apply (rejected_request_stops_at_the_limiter ∅ this 5 (Some "10.0.0.1"%string)).
  vm_compute. reflexivity.
Defined.

(** The requests of a client that were not answered 429 are its admitted
    calls. *)
Lemma served_admissions env clientId reqs : ∀ this,
  length (filter (λ p : string * Response, p.1 = clientId ∧ status p.2 ≠ 429%Z)
            (serve env this reqs))
  = admissions clientId this (callOf <$> reqs).
Proof.
  induction reqs as [|req reqs IH]; intros this; [done|].
  simpl serve. rewrite fmap_cons. unfold callOf at 1.
  rewrite admissions_cons, filter_cons, handler_limiterAfter. simpl.
  pose proof (handler_429 env this (arrival req) (forwardedFor req) (reading req) (net req))
    as H429.
  destruct (allowed (checkLimit this (arrival req) (clientIpOf (forwardedFor req))))
    eqn:Ha.
  - destruct (decide (clientIpOf (forwardedFor req) = clientId)) as [Hc|Hc].
    + rewrite decide_True by (split; [done|]; intros H; by apply H429 in H).
      rewrite decide_True by (by rewrite Hc). simpl. by rewrite IH.
    + rewrite decide_False by (by intros [? _]).
      rewrite decide_False by (intros [=]; done). by rewrite IH.
  - rewrite decide_False by (intros [_ Hs]; apply Hs; by apply H429).
    rewrite decide_False by (intros [=]). by rewrite IH.
Qed.

Lemma callOf_instants (reqs : list Incoming) : (callOf <$> reqs).*1 = arrival <$> reqs.
Proof. induction reqs as [|req reqs IH]; [done|]. rewrite !fmap_cons. by rewrite IH. Qed.

(** X10. Per client key and per window with a cap [C]: among requests that
    arrive pairwise less than the window length apart, at most [C] are
    answered with something other than 429, however the admitted requests
    end (bad body, failed fetch, upstream error or success). *)
Theorem served_within_window_cap (env : gmap string string) this (clientId : string)
    (w : Window) (C : nat) (reqs : list Incoming) :
  capOf w (config this) = ofZ (Z.of_nat C) →
  withinSpan (windowLength w) (arrival <$> reqs) →
  (length (filter (λ p : string * Response, p.1 = clientId ∧ status p.2 ≠ 429%Z)
             (serve env this reqs)) <= C)%nat.
Proof.
  intros Hcap Hspan. rewrite served_admissions.
  apply (admissions_le_window_cap (arrival <$> reqs) clientId w C _ this Hcap).
  - rewrite callOf_instants. by apply Forall_forall.
  - done.
Qed.

Lemma served_within_window_cap_witness :
  let this := limiterOf (caps 1 10 10) in
  let okay := FetchResponds (mkUpstreamResponse 200 "OK" "data" (inr "{}"%string)) in
  let reqs := [mkIncoming 0 (Some "10.0.0.1"%string) (BodyThrows (newError "bad")) okay;
               mkIncoming 1 (Some "10.0.0.1"%string) (BodyMessages "[]") okay] in
  (status <$> (serve ∅ this reqs).*2) = [500; 429]
  /\ (length (filter (λ p : string * Response, p.1 = "10.0.0.1"%string ∧ status p.2 ≠ 429%Z)
                (serve ∅ this reqs)) <= 1)%nat.
Proof.
  intros this okay reqs. split; [vm_compute; reflexivity|].
  apply (served_within_window_cap ∅ this "10.0.0.1"%string Minute 1 reqs).
  - reflexivity.
  - intros t t' Ht Ht'.
    repeat (apply elem_of_cons in Ht as [->|Ht]); try (by apply elem_of_nil in Ht);
    repeat (apply elem_of_cons in Ht' as [->|Ht']); try (by apply elem_of_nil in Ht');
    reflexivity.
Defined.

Lemma clientIpOf_anonymous (xff : option string) :
  xff = None ∨ xff = Some ""%string ∨ xff = Some "anonymous"%string →
  clientIpOf xff = "anonymous"%string.
Proof. by intros [->|[->| ->]]. Qed.

Lemma clientIpOf_nonempty (xff : option string) : clientIpOf xff ≠ ""%string.
Proof.
  destruct xff as [s|]; simpl; [|done].
  destruct (String.eqb s "") eqn:Hs; [done|]. by apply String.eqb_neq.
Qed.

Lemma filter_one_key (clientId : string) (l : list (string * Response)) :
  Forall (λ p : string * Response, p.1 = clientId) l →
  filter (λ p : string * Response, status p.2 ≠ 429) l
  = filter (λ p : string * Response, p.1 = clientId ∧ status p.2 ≠ 429) l.
Proof.
  induction 1 as [|p l Hp _ IH]; [done|].
  rewrite !filter_cons, IH.
  destruct (decide (status p.2 ≠ 429)) as [Hs|Hs].
  - by rewrite decide_True.
  - rewrite decide_False; [done|]. by intros [_ ?].
Qed.

(** X11. Requests without an [x-forwarded-for] header, with an empty one, or
    with the literal value [anonymous] are all decided under the one key
    [anonymous] (the limiter never sees an empty key): whoever sends them,
    they share one quota, so among such requests arriving pairwise less than
    a window length apart at most [C], the cap of that window, are answered
    with something other than 429. *)
Theorem headerless_requests_share_one_quota (env : gmap string string) this
    (w : Window) (C : nat) (reqs : list Incoming) :
  Forall (λ req, forwardedFor req = None ∨ forwardedFor req = Some ""%string
                 ∨ forwardedFor req = Some "anonymous"%string) reqs →
  capOf w (config this) = ofZ (Z.of_nat C) →
  withinSpan (windowLength w) (arrival <$> reqs) →
  Forall (λ p : string * Response, p.1 = "anonymous"%string) (serve env this reqs)
  /\ (length (filter (λ p : string * Response, status p.2 ≠ 429%Z) (serve env this reqs))
      <= C)%nat
  /\ ∀ xff, clientIpOf xff ≠ ""%string.
Proof.
  intros Hanon Hcap Hspan.
  assert (Forall (λ p : string * Response, p.1 = "anonymous"%string) (serve env this reqs))
    as Hkeys.
  { clear Hcap Hspan. revert this.
    induction Hanon as [|req reqs Hreq _ IH]; intros this; [constructor|].
    simpl. constructor; [by apply clientIpOf_anonymous|apply IH]. }
  split; [exact Hkeys|]. split; [|apply clientIpOf_nonempty].
  rewrite (filter_one_key "anonymous") by done.
  rewrite served_admissions.
  apply (admissions_le_window_cap (arrival <$> reqs) "anonymous" w C _ this Hcap).
  - rewrite callOf_instants. by apply Forall_forall.
  - done.
Qed.

Lemma headerless_requests_share_one_quota_witness :
  let this := limiterOf (caps 1 10 10) in
  let okay := FetchResponds (mkUpstreamResponse 200 "OK" "data" (inr "{}"%string)) in
  let reqs := [mkIncoming 0 None (BodyMessages "[]") okay;
               mkIncoming 1 (Some ""%string) (BodyMessages "[]") okay;
               mkIncoming 2 (Some "anonymous"%string) (BodyMessages "[]") okay] in
  (status <$> (serve ∅ this reqs).*2) = [200; 429; 429]
  /\ (length (filter (λ p : string * Response, status p.2 ≠ 429%Z) (serve ∅ this reqs))
      <= 1)%nat.
Proof.
  intros this okay reqs. split; [vm_compute; reflexivity|].
  refine (proj1 (proj2 (headerless_requests_share_one_quota ∅ this Minute 1 reqs _ _ _))).
  - apply Forall_cons; split; [by left|].
    apply Forall_cons; split; [right; by left|].
    apply Forall_cons; split; [right; by right|constructor].
  - reflexivity.
  - intros t t' Ht Ht'.
    repeat (apply elem_of_cons in Ht as [->|Ht]); try (by apply elem_of_nil in Ht);
    repeat (apply elem_of_cons in Ht' as [->|Ht']); try (by apply elem_of_nil in Ht');
    reflexivity.
Defined.

(** X12. The handler answers with one of three statuses: 429 exactly when
    the limiter rejects the client; 200 exactly when the client is admitted,
    the body is read and the upstream response has a status in 200-299; and
    500 in every other case. *)
Theorem handler_status_cases (env : gmap string string) this (now : Z)
    (xff : option string) (reading : BodyOutcome) (net : FetchOutcome) :
  let h := handler env this now xff reading net in
  let admitted := allowed (checkLimit this now (clientIpOf xff)) in
  (status (response h) = 429 ∨ status (response h) = 200 ∨ status (response h) = 500)
  /\ (status (response h) = 429 ↔ admitted = false)
  /\ (status (response h) = 200
      ↔ admitted = true
        ∧ ∃ messages r, reading = BodyMessages messages ∧ net = FetchResponds r
                        ∧ 200 <= upStatus r <= 299).
Proof.
  intros h admitted. unfold h, admitted. split; [|split].
  - rewrite handler_status. repeat case_match; auto.
  - apply handler_429.
  - rewrite handler_status.
    destruct (allowed (checkLimit this now (clientIpOf xff))).
    + destruct reading as [e|m].
      { split; [done|]. by intros (_ & m & r & [=] & _). }
      destruct net as [e|r].
      { split; [done|]. by intros (_ & m' & r & _ & [=] & _). }
      unfold ok. case_bool_decide as Hok.
      * split; [|done]. intros _. split; [done|]. by exists m, r.
      * split; [done|]. intros (_ & m' & r' & _ & [= <-] & Hr). done.
    + split; [done|]. by intros [[=] _].
Qed.

Lemma handler_status_cases_witness :
  status (response (handler ∅ (limiterOf (caps 1 10 10)) 0 None (BodyMessages "[]")
                      (FetchResponds (mkUpstreamResponse 204 "No Content" "" (inr "{}"%string)))))
  = 200.
Proof.
  apply (proj2 (proj2 (handler_status_cases ∅ (limiterOf (caps 1 10 10)) 0 None
                         (BodyMessages "[]")
                         (FetchResponds (mkUpstreamResponse 204 "No Content" ""
                                           (inr "{}"%string)))))).
  split; [vm_compute; reflexivity|].
  eexists _, _. split; [reflexivity|]. split; [reflexivity|]. simpl. lia.
Defined.

Lemma append_assoc (a b c : string) : ((a +:+ b) +:+ c = a +:+ (b +:+ c))%string.
Proof.
  induction a as [|x a IH]; [done|].
  change (String x ((a +:+ b) +:+ c) = String x (a +:+ (b +:+ c))).
  by rewrite IH.
Qed.

Lemma append_empty_r (a : string) : (a +:+ "" = a)%string.
Proof.
  induction a as [|x a IH]; [done|].
  change (String x (a +:+ "") = String x a). by rewrite IH.
Qed.

Lemma upstreamErrorMessage_nonempty (r : UpstreamResponse) :
  String.eqb (upstreamErrorMessage r) "" = false.
Proof. unfold upstreamErrorMessage. by destruct (upJson r). Qed.

(** X13. When the upstream response is not in 200-299, the status sent to
    the client is 500 whatever the upstream status was (401, 429, 503, ...):
    the upstream status only appears in the text of the JSON error, which
    starts with "OpenAI API error: ", the status in decimal and the status
    text.  The slot the request took in the limiter is kept. *)
Theorem upstream_failure_answered_500 (env : gmap string string) this (now : Z)
    (xff : option string) (messages : string) (r : UpstreamResponse) :
  allowed (checkLimit this now (clientIpOf xff)) = true →
  ¬ (200 <= upStatus r <= 299) →
  let h := handler env this now xff (BodyMessages messages) (FetchResponds r) in
  response h
  = {| status := 500;
       headers := [("Content-Type", "application/json")];
       body := JsonObject [("error", upstreamErrorMessage r);
                           ("details", "Error: " +:+ upstreamErrorMessage r);
                           ("type", "Error")] |}
  /\ (∃ rest, upstreamErrorMessage r
              = "OpenAI API error: " +:+ pretty (upStatus r) +:+ " " +:+ statusText r
                +:+ rest)
  /\ stored (limiterAfter h) (clientIpOf xff)
     = pruned now (stored this (clientIpOf xff)) ++ [now].
Proof.
  intros Ha Hnok h. unfold h. split; [|split].
  - unfold handler. rewrite Ha. simpl. unfold ok.
    rewrite bool_decide_eq_false_2 by done. simpl.
    unfold errorResponse, errorToString. simpl.
    by rewrite upstreamErrorMessage_nonempty.
  - unfold upstreamErrorMessage. destruct (upJson r) as [e|data].
    + exists ""%string. by rewrite append_empty_r.
    + exists (" - " +:+ data)%string. by rewrite !append_assoc.
  - by rewrite handler_limiterAfter, stored_accepted.
Qed.

Lemma upstream_failure_answered_500_witness :
  response (handler ∅ (limiterOf (caps 1 10 10)) 0 (Some "10.0.0.1"%string)
              (BodyMessages "[]")
              (FetchResponds (mkUpstreamResponse 429 "Too Many Requests" ""
                                (inr "{}"%string))))
  = {| status := 500;
       headers := [("Content-Type", "application/json")];
       body := JsonObject
                 [("error", "OpenAI API error: 429 Too Many Requests - {}");
                  ("details", "Error: OpenAI API error: 429 Too Many Requests - {}");
                  ("type", "Error")] |}.
Proof.
  refine (proj1 (upstream_failure_answered_500 ∅ (limiterOf (caps 1 10 10)) 0
                   (Some "10.0.0.1"%string) "[]"
                   (mkUpstreamResponse 429 "Too Many Requests" "" (inr "{}"%string)) _ _)).
  - vm_compute. reflexivity.
  - simpl. lia.
Defined.

(** The key and the 429 of each response of [serve] are the client and the
    decision of the corresponding call of [checkLimit]. *)
Lemma serve_tagged env reqs : ∀ this,
  (λ p : string * Response, (p.1, bool_decide (status p.2 ≠ 429))) <$> serve env this reqs
  = tagged this (callOf <$> reqs).
Proof.
  induction reqs as [|req reqs IH]; intros this; [done|].
  simpl serve. rewrite !fmap_cons. unfold callOf at 1. simpl tagged.
  rewrite handler_limiterAfter, IH. f_equal. simpl. f_equal.
  pose proof (handler_429 env this (arrival req) (forwardedFor req) (reading req) (net req))
    as H429.
  destruct (allowed (checkLimit this (arrival req) (clientIpOf (forwardedFor req)))).
  - apply bool_decide_eq_true_2. intros H. by apply H429 in H.
  - apply bool_decide_eq_false_2. intros H. apply H. by apply H429.
Qed.

(** X14. On the module's limiter, whose caps were fixed when the module
    was loaded, which requests are answered 429 depends only on the arrival
    instants and the client keys of the requests: what their bodies hold and
    what the upstream answers have no influence, so an admitted request that
    ends in an error has used its slot like one that succeeded. *)
Theorem rate_limiting_ignores_outcomes (env : gmap string string) this
    (reqs reqs' : list Incoming) :
  callOf <$> reqs = callOf <$> reqs' →
  (λ p : string * Response, (p.1, bool_decide (status p.2 ≠ 429))) <$> serve env this reqs
  = (λ p : string * Response, (p.1, bool_decide (status p.2 ≠ 429))) <$> serve env this reqs'
  /\ (λ p : string * Response, (p.1, bool_decide (status p.2 ≠ 429))) <$> serve env this reqs
     = tagged this (callOf <$> reqs).
Proof.
  intros Hcalls. rewrite !serve_tagged. by rewrite Hcalls.
Qed.

Lemma rate_limiting_ignores_outcomes_witness :
  let this := limiterOf (caps 1 10 10) in
  let okay := FetchResponds (mkUpstreamResponse 200 "OK" "data" (inr "{}"%string)) in
  let failing := [mkIncoming 0 (Some "10.0.0.1"%string) (BodyThrows (newError "bad")) okay;
                  mkIncoming 1 (Some "10.0.0.1"%string) (BodyMessages "[]") okay] in
  let working := [mkIncoming 0 (Some "10.0.0.1"%string) (BodyMessages "[]") okay;
                  mkIncoming 1 (Some "10.0.0.1"%string) (BodyMessages "[]") okay] in
  (status <$> (serve ∅ this failing).*2) = [500; 429]
  /\ (status <$> (serve ∅ this working).*2) = [200; 429]
  /\ (λ p : string * Response, (p.1, bool_decide (status p.2 ≠ 429))) <$> serve ∅ this failing
     = (λ p : string * Response, (p.1, bool_decide (status p.2 ≠ 429)))
         <$> serve ∅ this working.
Proof.
  intros this okay failing working.
  split; [vm_compute; reflexivity|]. split; [vm_compute; reflexivity|].
  apply (proj1 (rate_limiting_ignores_outcomes ∅ this failing working eq_refl)).
Defined.

Lemma organization_header (env : gmap string string) (v : string) :
  ("OpenAI-Organization"%string, v) ∈ upstreamHeaders env
  ↔ env !! "OPENAI_ORG_ID"%string = Some v ∧ v ≠ ""%string.
Proof.
  unfold upstreamHeaders. rewrite elem_of_app, !elem_of_cons, elem_of_nil.
  destruct (env !! "OPENAI_ORG_ID"%string) as [org|] eqn:Horg.
  - destruct (String.eqb org "") eqn:Hempty.
    + apply String.eqb_eq in Hempty. subst org. rewrite elem_of_nil.
      split; [intros [[[=]|[[=]|[]]]|[]]|]. intros [[= <-] Hv]. done.
    + apply String.eqb_neq in Hempty. rewrite list_elem_of_singleton.
      split.
      * intros [[[=]|[[=]|[]]]|[= <-]]. done.
      * intros [[= <-] _]. by right.
  - rewrite elem_of_nil. split; [intros [[[=]|[[=]|[]]]|[]]|]. by intros [[=] _].
Qed.

(** X15. A request leads to at most one upstream call, made exactly when
    the client is admitted and the body was read.  That call always carries
    an [Authorization] header, which reads [Bearer undefined] when the key
    variable is unset, and it carries an [OpenAI-Organization] header exactly
    when that variable is set and not empty. *)
Theorem upstream_call_made_once (env : gmap string string) this (now : Z)
    (xff : option string) (reading : BodyOutcome) (net : FetchOutcome) :
  let h := handler env this now xff reading net in
  (fetched h = []
   ∨ ∃ messages, reading = BodyMessages messages
                 ∧ fetched h = [upstreamRequest env messages])
  /\ (fetched h ≠ []
      ↔ allowed (checkLimit this now (clientIpOf xff)) = true
        ∧ ∃ messages, reading = BodyMessages messages)
  /\ (∀ messages,
        ("Authorization"%string,
         ("Bearer " +:+ default "undefined" (env !! "VITE_OPENAI_API_KEY"%string))%string)
        ∈ reqHeaders (upstreamRequest env messages))
  /\ (∀ messages v,
        ("OpenAI-Organization"%string, v) ∈ reqHeaders (upstreamRequest env messages)
        ↔ env !! "OPENAI_ORG_ID"%string = Some v ∧ v ≠ ""%string).
Proof.
  intros h. unfold h. split; [|split; [|split]].
  - unfold handler.
    destruct (allowed (checkLimit this now (clientIpOf xff))); simpl; [|by left].
    destruct reading as [e|m]; [by left|]. right. exists m. split; [done|].
    destruct net as [e|r]; [done|]. by destruct (ok r).
  - unfold handler.
    destruct (allowed (checkLimit this now (clientIpOf xff))); simpl.
    + destruct reading as [e|m]; simpl.
      * split; [done|]. by intros (_ & m & [=]).
      * split; [intros _; split; [done|by exists m]|intros _].
        destruct net as [e|r]; [done|]. by destruct (ok r).
    + split; [done|]. by intros [[=] _].
  - intros messages. unfold upstreamRequest, upstreamHeaders, envText. simpl.
    apply elem_of_cons. right. apply elem_of_cons. by left.
  - intros messages v. apply organization_header.
Qed.

Lemma upstream_call_made_once_witness :
  fetched (handler {[ "OPENAI_ORG_ID"%string := "org-1"%string ]}
             (limiterOf (caps 1 10 10)) 0 None (BodyMessages "[]")
             (FetchThrows (mkError "TypeError" "TypeError" "fetch failed")))
  ≠ []
  /\ ("OpenAI-Organization"%string, "org-1"%string)
     ∈ reqHeaders (upstreamRequest {[ "OPENAI_ORG_ID"%string := "org-1"%string ]} "[]").
Proof.
  pose proof (upstream_call_made_once {[ "OPENAI_ORG_ID"%string := "org-1"%string ]}
                (limiterOf (caps 1 10 10)) 0 None (BodyMessages "[]")
                (FetchThrows (mkError "TypeError" "TypeError" "fetch failed")))
    as (_ & Hmade & _ & Horg).
  split.
  - apply Hmade. split; [vm_compute; reflexivity|]. by eexists.
  - apply Horg. split; [vm_compute; reflexivity|discriminate].
Defined.

(** * Properties of the streamed transcript *)

Lemma chunkReceived_pair (chunk : StreamChunk) (m m' : Message) :
  chunkReceived chunk [m; m'] = [m; chunkMessage chunk].
Proof. reflexivity. Qed.

Lemma messagesAfter_snoc query chunks chunk :
  messagesAfter query (chunks ++ [chunk])
  = chunkReceived chunk (messagesAfter query chunks).
Proof. unfold messagesAfter. by rewrite foldl_app. Qed.

Lemma messagesOver_snoc events event :
  messagesOver (events ++ [event]) = messagesStep (messagesOver events) event.
Proof. unfold messagesOver. by rewrite foldl_app. Qed.

Lemma messagesOver_chunks events query chunks :
  messagesOver (events ++ Search query :: (Chunk <$> chunks)) = messagesAfter query chunks.
Proof.
  unfold messagesOver, messagesAfter. rewrite foldl_app. simpl.
  generalize (searchStarted query). induction chunks as [|chunk chunks IH]; [done|].
  intros messages. simpl. apply IH.
Qed.

Lemma messagesAfter_shape query chunks :
  messagesAfter query chunks
  = [mkMessage user (Some query) None None;
     match last chunks with
     | Some latest => chunkMessage latest
     | None => mkMessage ai (Some ""%string) None None
     end].
Proof.
  induction chunks as [|latest chunks IH] using rev_ind; [done|].
  rewrite messagesAfter_snoc, IH, last_snoc. apply chunkReceived_pair.
Qed.

(** The three shapes a transcript can have. *)
Lemma messagesOver_shape events :
  messagesOver events = []
  ∨ (∃ chunk, messagesOver events = [chunkMessage chunk])
  ∨ (∃ query answer, messagesOver events = [mkMessage user (Some query) None None; answer]
                     ∧ type answer = ai).
Proof.
  induction events as [|event events IH] using rev_ind; [by left|].
  rewrite messagesOver_snoc. destruct event as [query|chunk|]; simpl.
  - right. right. by eexists _, _.
  - destruct IH as [-> |[[c ->]|(q & answer & -> & _)]].
    + right. left. by exists chunk.
    + right. left. by exists chunk.
    + right. right. exists q, (chunkMessage chunk). by rewrite chunkReceived_pair.
  - by left.
Qed.

(** X16. A chunk replaces the last message of the transcript and touches
    nothing before it: the transcript keeps its length (an empty one gets
    the chunk as only message).  As long as only chunks follow the start of
    a search, the transcript is the query of the user followed by one
    answer: the empty placeholder before the first chunk, the message of the
    latest chunk afterwards.  A chunk that arrives after a reset finds the
    transcript empty and leaves its answer alone, without any query; over
    every sequence of searches, chunks and resets the transcript is empty,
    such a lone answer, or a query followed by one answer. *)
Theorem chunks_overwrite_the_answer (events : list MessagesEvent) (query : string)
    (chunks : list StreamChunk) (chunk : StreamChunk) (prev : list Message) :
  length (chunkReceived chunk prev) = (length prev `max` 1)%nat
  /\ last (chunkReceived chunk prev) = Some (chunkMessage chunk)
  /\ (∀ i : nat, (S i < length prev)%nat → chunkReceived chunk prev !! i = prev !! i)
  /\ messagesOver (events ++ Search query :: (Chunk <$> chunks))
     = [mkMessage user (Some query) None None;
        match last chunks with
        | Some latest => chunkMessage latest
        | None => mkMessage ai (Some ""%string) None None
        end]
  /\ messagesOver (events ++ [Reset; Chunk chunk]) = [chunkMessage chunk]
  /\ (messagesOver events = []
      ∨ (∃ late, messagesOver events = [chunkMessage late])
      ∨ (∃ asked answer,
           messagesOver events = [mkMessage user (Some asked) None None; answer]
           ∧ type answer = ai)).
Proof.
  split; [|split; [|split; [|split; [|split]]]].
  - unfold chunkReceived. rewrite length_app, length_take. simpl. lia.
  - unfold chunkReceived. apply last_snoc.
  - intros i Hi. unfold chunkReceived.
    rewrite lookup_app_l by (rewrite length_take; lia).
    apply lookup_take_lt. lia.
  - rewrite messagesOver_chunks. apply messagesAfter_shape.
  - unfold messagesOver. rewrite foldl_app. reflexivity.
  - apply messagesOver_shape.
Qed.

Lemma chunks_overwrite_the_answer_witness :
  chunkReceived (mkChunk (Some "The moon"%string) None None)
    (messagesOver [Search "tides"; Chunk (mkChunk (Some "The"%string) None None)])
  !! 0%nat
  = Some (mkMessage user (Some "tides"%string) None None).
Proof.
  pose proof (chunks_overwrite_the_answer [] "tides" []
                (mkChunk (Some "The moon"%string) None None)
                (messagesOver [Search "tides"; Chunk (mkChunk (Some "The"%string) None None)]))
    as (_ & _ & Hkeep & _).
  rewrite Hkeep; [reflexivity|]. simpl. lia.
Defined.

Example late_chunk_after_reset :
  messagesOver [Search "tides"; Chunk (mkChunk (Some "The"%string) None None); Reset;
                Chunk (mkChunk (Some "The moon"%string) None None)]
  = [mkMessage ai (Some "The moon"%string) None None].
Proof. reflexivity. Qed.
